(** * Verification of the admin scripts: draft auto-save and currency symbol

    This development embeds two browser scripts in Rocq:

    - [staticfiles/admin/js/custom-admin.js] : the page-load handler and
      [initAutoSave], the draft persistence manager (module [AutoSave]);
    - the tenant-admin currency script, whose [updateCurrencySymbol] fills
      the currency-symbol field (module [Currency]).

    JavaScript strings are sequences of UTF-16 code units ([list N]).
    Abrupt completion (a thrown exception) is explicit: every operation of
    the scripts that can throw returns a [Completion].  The host objects the
    scripts call (ordinary objects, [JSON], [localStorage], the DOM) are
    modelled in the modules [Obj], [Json], [Storage] and [Dom]; what a
    script leaves to the browser (the selector engine, the value setter of a
    control) is a parameter, the class [AutoSave.Host].  Module [Scenario]
    holds the concrete pages on which the statements are exercised. *)

From Stdlib Require Import String Ascii NArith ZArith List Lia.
From stdpp Require Import base option list sorting gmap.

Set Warnings "-register-all".

Abbreviation jsstring := (list N) (only parsing).

(** ** JavaScript strings and completions *)
Module JS.

(** An ASCII literal as a sequence of code units. *)
Definition str (s : string) : jsstring :=
  map N_of_ascii (list_ascii_of_string s).
Arguments str s%_string.

Inductive Exception : Type :=
| SyntaxError          (* JSON.parse on malformed text *)
| TypeError            (* Object.keys(null) *)
| QuotaExceededError   (* localStorage.setItem beyond the quota *)
| DOMSyntaxError       (* querySelector on an invalid selector *)
| HostError (tag : N)  (* any other exception raised by a host setter *).

Inductive Completion (A : Type) : Type :=
| Normal (a : A)
| Throw (e : Exception).
Arguments Normal {A} a.
Arguments Throw {A} e.

Definition is_throw {A} (c : Completion A) : bool :=
  match c with Normal _ => false | Throw _ => true end.

(** ToBoolean on a string: only the empty string is falsy. *)
Definition truthy (s : jsstring) : bool :=
  match s with [] => false | _ :: _ => true end.

(** Decimal digits of a natural number, as used for array-index keys. *)
Fixpoint uint_units (d : Decimal.uint) : jsstring :=
  match d with
  | Decimal.Nil => []
  | Decimal.D0 r => 48%N :: uint_units r
  | Decimal.D1 r => 49%N :: uint_units r
  | Decimal.D2 r => 50%N :: uint_units r
  | Decimal.D3 r => 51%N :: uint_units r
  | Decimal.D4 r => 52%N :: uint_units r
  | Decimal.D5 r => 53%N :: uint_units r
  | Decimal.D6 r => 54%N :: uint_units r
  | Decimal.D7 r => 55%N :: uint_units r
  | Decimal.D8 r => 56%N :: uint_units r
  | Decimal.D9 r => 57%N :: uint_units r
  end.

Definition decimal (n : N) : jsstring := uint_units (N.to_uint n).

(** An array index is the canonical decimal form of an integer in
    [0, 2^32 - 2] (ECMA-262, "array index"). *)
Definition is_digit (c : N) : bool := ((48 <=? c) && (c <=? 57))%N.

Fixpoint digits_value (s : jsstring) (acc : N) : N :=
  match s with
  | [] => acc
  | c :: r => digits_value r (acc * 10 + (c - 48))%N
  end.

(** No leading zero. *)
Definition nz (s : jsstring) : Prop :=
  match s with [] => True | c :: _ => c <> 48%N end.

Definition array_index (k : jsstring) : option N :=
  match k with
  | [] => None
  | c :: r =>
      if forallb is_digit k && (negb (c =? 48)%N || match r with [] => true | _ => false end)
      then let v := digits_value k 0 in
           if (v <=? 4294967294)%N then Some v else None
      else None
  end.

(** String.prototype.trim: strips WhiteSpace and LineTerminator code
    units from both ends. *)
Definition is_trim_space (c : N) : bool :=
  ((c =? 9) || (c =? 10) || (c =? 11) || (c =? 12) || (c =? 13) || (c =? 32)
   || (c =? 160) || (c =? 5760) || ((8192 <=? c) && (c <=? 8202))
   || (c =? 8232) || (c =? 8233) || (c =? 8239) || (c =? 8287)
   || (c =? 12288) || (c =? 65279))%N.

Fixpoint trim_start (s : jsstring) : jsstring :=
  match s with
  | [] => []
  | c :: r => if is_trim_space c then trim_start r else s
  end.

Definition trim (s : jsstring) : jsstring :=
  rev (trim_start (rev (trim_start s))).

End JS.
Import JS.

(** ** Ordinary objects used as string-keyed maps

    The own string-keyed properties of an ordinary object, in the order
    [OrdinaryOwnPropertyKeys] lists them: array indices in ascending numeric
    order first, then the other keys in creation order. *)
Module Obj.

Definition t (V : Type) : Type := list (jsstring * V).

Definition keys {V} (o : t V) : list jsstring := map fst o.

Fixpoint get {V} (o : t V) (k : jsstring) : option V :=
  match o with
  | [] => None
  | (k', v) :: r => if bool_decide (k' = k) then Some v else get r k
  end.

Definition has {V} (o : t V) (k : jsstring) : bool :=
  match get o k with Some _ => true | None => false end.

(** Overwrite the value of an existing key, keeping its position. *)
Fixpoint replace {V} (k : jsstring) (v : V) (o : t V) : t V :=
  match o with
  | [] => []
  | (k', v') :: r =>
      if bool_decide (k' = k) then (k, v) :: r else (k', v') :: replace k v r
  end.

(** Place a new array-index key [k] (of value [i]) after the smaller
    indices and before everything else. *)
Fixpoint insert_index {V} (i : N) (k : jsstring) (v : V) (o : t V) : t V :=
  match o with
  | [] => [(k, v)]
  | (k', v') :: r =>
      match array_index k' with
      | Some j => if (j <? i)%N then (k', v') :: insert_index i k v r
                  else (k, v) :: o
      | None => (k, v) :: o
      end
  end.

(** CreateDataProperty on an ordinary object. *)
Definition define {V} (k : jsstring) (v : V) (o : t V) : t V :=
  if has o k then replace k v o
  else match array_index k with
       | Some i => insert_index i k v o
       | None => o ++ [(k, v)]
       end.

Definition proto_key : jsstring := str "__proto__".

(** [before k1 k2]: key [k1] may precede key [k2] in the own-property
    order: they differ, and an array index is only preceded by smaller
    array indices. *)
Definition before (k1 k2 : jsstring) : Prop :=
  k1 <> k2 /\
  forall i2, array_index k2 = Some i2 ->
    exists i1, array_index k1 = Some i1 /\ (i1 < i2)%N.

(** An object whose keys are listed in own-property order. *)
Definition wf {V} (o : t V) : Prop := StronglySorted before (keys o).

(** [o[k] = v] where [v] is a primitive string and [o] inherits from
    Object.prototype: the assignment reaches the inherited [__proto__]
    setter when [k] is [proto_key] and [o] has no own property of that
    name; that setter ignores primitives.  Every other key is an own data
    property. *)
Definition assign {V} (k : jsstring) (v : V) (o : t V) : t V :=
  if bool_decide (k = proto_key) && negb (has o k) then o else define k v o.

End Obj.

(** ** The JSON object of the host

    [JSON.parse] follows the JSON grammar (ECMA-404) and builds objects with
    CreateDataProperty, so that a repeated member name keeps its first
    position and its last value.  A number is kept as the lexeme that was
    read.  [JSON.stringify] is given on the objects the script passes to it,
    whose values are all strings. *)
Module Json.

Inductive value : Type :=
| JNull
| JBool (b : bool)
| JNumber (lexeme : jsstring)
| JString (s : jsstring)
| JArray (elements : list value)
| JObject (members : Obj.t value).

(** Result of a parsing function: a value and the text left, a syntax
    error, or recursion budget exhausted (never the case for
    [JSON_parse], see [parse_value_fuel]). *)
Inductive presult (A : Type) : Type :=
| POk (a : A) (rest : jsstring)
| PErr
| PFuel.
Arguments POk {A} a rest.
Arguments PErr {A}.
Arguments PFuel {A}.

Definition is_ws (c : N) : bool :=
  ((c =? 9) || (c =? 10) || (c =? 13) || (c =? 32))%N.

Fixpoint skip_ws (s : jsstring) : jsstring :=
  match s with
  | [] => []
  | c :: r => if is_ws c then skip_ws r else s
  end.

Definition hex_value (c : N) : option N :=
  if ((48 <=? c) && (c <=? 57))%N then Some (c - 48)%N
  else if ((97 <=? c) && (c <=? 102))%N then Some (c - 87)%N
  else if ((65 <=? c) && (c <=? 70))%N then Some (c - 55)%N
  else None.

Definition hex4 (a b c d : N) : option N :=
  match hex_value a, hex_value b, hex_value c, hex_value d with
  | Some x, Some y, Some z, Some w => Some (((x * 16 + y) * 16 + z) * 16 + w)%N
  | _, _, _, _ => None
  end.

(** The single-character escapes of a JSON string. *)
Definition unescape (e : N) : option N :=
  if (e =? 34)%N then Some 34%N          (* quotation mark *)
  else if (e =? 92)%N then Some 92%N     (* reverse solidus *)
  else if (e =? 47)%N then Some 47%N     (* solidus *)
  else if (e =? 98)%N then Some 8%N      (* b: backspace *)
  else if (e =? 102)%N then Some 12%N    (* f: form feed *)
  else if (e =? 110)%N then Some 10%N    (* n: line feed *)
  else if (e =? 114)%N then Some 13%N    (* r: carriage return *)
  else if (e =? 116)%N then Some 9%N     (* t: tab *)
  else None.

Definition prepend (c : N) (r : presult jsstring) : presult jsstring :=
  match r with
  | POk t rest => POk (c :: t) rest
  | PErr => PErr
  | PFuel => PFuel
  end.

Definition prepend_all (s : jsstring) (r : presult jsstring) : presult jsstring :=
  match r with
  | POk t rest => POk (s ++ t) rest
  | PErr => PErr
  | PFuel => PFuel
  end.

(** The characters of a string after its opening quote, up to and
    including the closing quote. *)
Fixpoint parse_chars (s : jsstring) : presult jsstring :=
  match s with
  | [] => PErr
  | c :: r =>
      if (c =? 34)%N then POk [] r
      else if (c =? 92)%N then
        match r with
        | [] => PErr
        | e :: r1 =>
            if (e =? 117)%N then
              match r1 with
              | h1 :: h2 :: h3 :: h4 :: r2 =>
                  match hex4 h1 h2 h3 h4 with
                  | Some u => prepend u (parse_chars r2)
                  | None => PErr
                  end
              | _ => PErr
              end
            else
              match unescape e with
              | Some u => prepend u (parse_chars r1)
              | None => PErr
              end
        end
      else if (c <? 32)%N then PErr
      else prepend c (parse_chars r)
  end.

Fixpoint span_digits (s : jsstring) : jsstring * jsstring :=
  match s with
  | [] => ([], [])
  | c :: r =>
      if is_digit c then let '(ds, rest) := span_digits r in (c :: ds, rest)
      else ([], s)
  end.

(** int: a single zero, or a non-zero digit followed by digits. *)
Definition parse_int (s : jsstring) : option (jsstring * jsstring) :=
  match s with
  | [] => None
  | c :: r =>
      if (c =? 48)%N then Some ([c], r)
      else if is_digit c then let '(ds, rest) := span_digits r in Some (c :: ds, rest)
      else None
  end.

Definition parse_frac (s : jsstring) : option (jsstring * jsstring) :=
  match s with
  | c :: r =>
      if (c =? 46)%N then
        match span_digits r with
        | ([], _) => None
        | (ds, rest) => Some (c :: ds, rest)
        end
      else Some ([], s)
  | [] => Some ([], s)
  end.

Definition parse_exp (s : jsstring) : option (jsstring * jsstring) :=
  match s with
  | c :: r =>
      if ((c =? 101) || (c =? 69))%N then
        let '(sign, r1) :=
          match r with
          | g :: r' => if ((g =? 43) || (g =? 45))%N then ([g], r') else ([], r)
          | [] => ([], r)
          end in
        match span_digits r1 with
        | ([], _) => None
        | (ds, rest) => Some (c :: sign ++ ds, rest)
        end
      else Some ([], s)
  | [] => Some ([], s)
  end.

Definition parse_number (s : jsstring) : presult jsstring :=
  let '(sign, s1) :=
    match s with
    | c :: r => if (c =? 45)%N then ([c], r) else ([], s)
    | [] => ([], s)
    end in
  match parse_int s1 with
  | None => PErr
  | Some (i, s2) =>
      match parse_frac s2 with
      | None => PErr
      | Some (f, s3) =>
          match parse_exp s3 with
          | None => PErr
          | Some (e, s4) => POk (sign ++ i ++ f ++ e) s4
          end
      end
  end.

Fixpoint strip_prefix (p s : jsstring) : option jsstring :=
  match p, s with
  | [], _ => Some s
  | a :: p', b :: s' => if (a =? b)%N then strip_prefix p' s' else None
  | _ :: _, [] => None
  end.

(** The members of an object after the first one has been seen to start:
    [string : value] separated by commas, closed by a brace. *)
Fixpoint parse_members (pv : jsstring -> presult value) (n : nat)
         (acc : Obj.t value) (s : jsstring) : presult value :=
  match n with
  | O => PFuel
  | S n' =>
      match skip_ws s with
      | c :: r =>
          if (c =? 34)%N then
            match parse_chars r with
            | POk k r1 =>
                match skip_ws r1 with
                | c1 :: r2 =>
                    if (c1 =? 58)%N then
                      match pv r2 with
                      | POk v r3 =>
                          let acc' := Obj.define k v acc in
                          match skip_ws r3 with
                          | c3 :: r4 =>
                              if (c3 =? 44)%N then parse_members pv n' acc' r4
                              else if (c3 =? 125)%N then POk (JObject acc') r4
                              else PErr
                          | [] => PErr
                          end
                      | PErr => PErr
                      | PFuel => PFuel
                      end
                    else PErr
                | [] => PErr
                end
            | PErr => PErr
            | PFuel => PFuel
            end
          else PErr
      | [] => PErr
      end
  end.

(** The elements of a non-empty array. *)
Fixpoint parse_elements (pv : jsstring -> presult value) (n : nat)
         (acc : list value) (s : jsstring) : presult value :=
  match n with
  | O => PFuel
  | S n' =>
      match pv s with
      | POk v r1 =>
          match skip_ws r1 with
          | c :: r2 =>
              if (c =? 44)%N then parse_elements pv n' (acc ++ [v]) r2
              else if (c =? 93)%N then POk (JArray (acc ++ [v])) r2
              else PErr
          | [] => PErr
          end
      | PErr => PErr
      | PFuel => PFuel
      end
  end.

(** A value, after optional white space. *)
Fixpoint parse_value (fuel : nat) (s : jsstring) : presult value :=
  match fuel with
  | O => PFuel
  | S f =>
      match skip_ws s with
      | [] => PErr
      | c :: r =>
          if (c =? 123)%N then
            match skip_ws r with
            | c' :: r' =>
                if (c' =? 125)%N then POk (JObject []) r'
                else parse_members (parse_value f) (S (length r)) [] r
            | [] => PErr
            end
          else if (c =? 91)%N then
            match skip_ws r with
            | c' :: r' =>
                if (c' =? 93)%N then POk (JArray []) r'
                else parse_elements (parse_value f) (S (length r)) [] r
            | [] => PErr
            end
          else if (c =? 34)%N then
            match parse_chars r with
            | POk t rest => POk (JString t) rest
            | PErr => PErr
            | PFuel => PFuel
            end
          else if (c =? 116)%N then
            match strip_prefix (str "rue") r with
            | Some rest => POk (JBool true) rest
            | None => PErr
            end
          else if (c =? 102)%N then
            match strip_prefix (str "alse") r with
            | Some rest => POk (JBool false) rest
            | None => PErr
            end
          else if (c =? 110)%N then
            match strip_prefix (str "ull") r with
            | Some rest => POk JNull rest
            | None => PErr
            end
          else
            match parse_number (c :: r) with
            | POk l rest => POk (JNumber l) rest
            | PErr => PErr
            | PFuel => PFuel
            end
      end
  end.

(** A value parser that consumes at least one character. *)
Definition shrinks (pv : jsstring -> presult value) : Prop :=
  forall t v r, pv t = POk v r -> length r < length t.

(** [JSON.parse(text)]: one value surrounded by optional white space;
    anything else throws a SyntaxError. *)
Definition JSON_parse (text : jsstring) : Completion value :=
  match parse_value (S (length text)) text with
  | POk v rest =>
      match skip_ws rest with
      | [] => Normal v
      | _ :: _ => Throw SyntaxError
      end
  | PErr => Throw SyntaxError
  | PFuel => Throw SyntaxError
  end.

(** *** JSON.stringify on string-valued objects *)

Definition hex_digit (d : N) : N :=
  if (d <? 10)%N then (48 + d)%N else (87 + d)%N.

(** [\uXXXX] with lower-case hexadecimal digits. *)
Definition unicode_escape (c : N) : jsstring :=
  [92; 117; hex_digit (c / 4096 mod 16); hex_digit (c / 256 mod 16);
   hex_digit (c / 16 mod 16); hex_digit (c mod 16)]%N.

Definition is_high_surrogate (c : N) : bool := ((55296 <=? c) && (c <=? 56319))%N.
Definition is_low_surrogate (c : N) : bool := ((56320 <=? c) && (c <=? 57343))%N.

(** One code unit that is not a surrogate, as QuoteJSONString writes it. *)
Definition escape_unit (c : N) : jsstring :=
  if (c =? 8)%N then [92; 98]%N
  else if (c =? 9)%N then [92; 116]%N
  else if (c =? 10)%N then [92; 110]%N
  else if (c =? 12)%N then [92; 102]%N
  else if (c =? 13)%N then [92; 114]%N
  else if (c =? 34)%N then [92; 34]%N
  else if (c =? 92)%N then [92; 92]%N
  else if (c <? 32)%N then unicode_escape c
  else [c].

(** Paired surrogates are copied, lone surrogates are escaped. *)
Fixpoint quote_body (s : jsstring) : jsstring :=
  match s with
  | [] => []
  | c :: r =>
      if is_high_surrogate c then
        match r with
        | d :: r' =>
            if is_low_surrogate d then c :: d :: quote_body r'
            else unicode_escape c ++ quote_body r
        | [] => unicode_escape c
        end
      else if is_low_surrogate c then unicode_escape c ++ quote_body r
      else escape_unit c ++ quote_body r
  end.

Definition quote (s : jsstring) : jsstring := 34%N :: quote_body s ++ [34%N].

Definition member_text (m : jsstring * jsstring) : jsstring :=
  quote (fst m) ++ 58%N :: quote (snd m).

Fixpoint members_text (ms : list (jsstring * jsstring)) : jsstring :=
  match ms with
  | [] => []
  | [m] => member_text m
  | m :: r => member_text m ++ 44%N :: members_text r
  end.

(** [JSON.stringify(o)] for an object [o] whose values are strings. *)
Definition JSON_stringify (o : Obj.t jsstring) : jsstring :=
  123%N :: members_text o ++ [125%N].

(** The parsed form of a string-valued object. *)
Definition of_record (o : Obj.t jsstring) : value :=
  JObject (map (fun m => (fst m, JString (snd m))) o).

(** A decoded value read back as a record: an object all of whose values
    are strings. *)
Fixpoint strings_of (ms : Obj.t value) : option (Obj.t jsstring) :=
  match ms with
  | [] => Some []
  | (k, JString s) :: r =>
      match strings_of r with
      | Some t => Some ((k, s) :: t)
      | None => None
      end
  | _ => None
  end.

Definition to_record (v : value) : option (Obj.t jsstring) :=
  match v with
  | JObject ms => strings_of ms
  | _ => None
  end.

(** The encoding and decoding of draft records. *)
Definition encode (r : Obj.t jsstring) : jsstring := JSON_stringify r.

Definition decode (x : jsstring) : option (Obj.t jsstring) :=
  match JSON_parse x with
  | Normal v => to_record v
  | Throw _ => None
  end.

End Json.
Import Json.

(** ** The persistent store ([window.localStorage])

    A string-keyed store of strings with a finite quota, counted in code
    units of keys and values.  [setItem] throws a QuotaExceededError when the
    store would outgrow the quota (a store that accepts nothing, as in some
    private-browsing modes, has quota 0); [getItem] and [removeItem] never
    throw. *)
Module Storage.

Record t : Type := mk {
  items : gmap (list N) (list N);
  quota : nat
}.

Definition usage (m : gmap (list N) (list N)) : nat :=
  map_fold (fun k v acc => length k + length v + acc) 0 m.

Definition getItem (k : jsstring) (st : t) : option jsstring := items st !! k.

Definition setItem (k v : jsstring) (st : t) : Completion t :=
  let m := <[k := v]> (items st) in
  if usage m <=? quota st then Normal (mk m (quota st))
  else Throw QuotaExceededError.

Definition removeItem (k : jsstring) (st : t) : t :=
  mk (delete k (items st)) (quota st).

End Storage.

(** ** The document: forms, their fields and the registered listeners

    A form is the list, in tree order, of its descendants matching
    [input, textarea, select]; these are also the only descendants assumed
    to carry a [name] attribute.  A field holds its attributes, its current
    [value] and its inline [style.background].  The set of fields of a form
    is fixed after page load. *)
Module Dom.

Inductive Tag : Type := INPUT | TEXTAREA | SELECT.

Record Field : Type := mkField {
  tag : Tag;
  attrs : list (jsstring * jsstring);
  value : jsstring;
  background : jsstring
}.

Record Form : Type := mkForm {
  form_attrs : list (jsstring * jsstring);
  fields : list Field
}.

(** [el.getAttribute(a)]: [None] is null. *)
Fixpoint getAttribute (a : jsstring) (l : list (jsstring * jsstring)) : option jsstring :=
  match l with
  | [] => None
  | (a', v) :: r => if bool_decide (a' = a) then Some v else getAttribute a r
  end.

(** The reflecting property [inp.name]: the attribute, or the empty string. *)
Definition name (f : Field) : jsstring :=
  match getAttribute (str "name") (attrs f) with
  | Some n => n
  | None => []
  end.

Inductive EventType : Type := Change | Submit | Blur | InputEvent | Click | MouseEnter.

Inductive Target : Type :=
| OnForm (i : nat)
| OnField (i j : nat).

(** The listeners the script registers.  The two auto-save listeners close
    over the form (its position on the page stands for the captured
    [inputs] list) and over [formId]. *)
Inductive Feature : Type :=
| CharacterCounter | RequiredValidation | ConfirmDelete | SearchIndicator | Tooltip.

Inductive Handler : Type :=
| AutoSaveChange (form : nat) (formId : jsstring)
| AutoSaveSubmit (formId : jsstring)
| Decoration (f : Feature).

Record Page : Type := mkPage {
  forms : list Form;
  localStorage : Storage.t;
  listeners : list (Target * EventType * Handler)
}.

#[global] Instance Tag_eq_dec : EqDecision Tag.
Proof. solve_decision. Defined.
#[global] Instance EventType_eq_dec : EqDecision EventType.
Proof. solve_decision. Defined.
#[global] Instance Target_eq_dec : EqDecision Target.
Proof. solve_decision. Defined.

Definition set_field (i j : nat) (f : Field) (p : Page) : Page :=
  match forms p !! i with
  | Some fm =>
      mkPage (<[i := mkForm (form_attrs fm) (<[j := f]> (fields fm))]> (forms p))
             (localStorage p) (listeners p)
  | None => p
  end.

Definition addEventListener (t : Target) (ev : EventType) (h : Handler) (p : Page) : Page :=
  mkPage (forms p) (localStorage p) (listeners p ++ [(t, ev, h)]).

Definition set_storage (st : Storage.t) (p : Page) : Page :=
  mkPage (forms p) st (listeners p).

(** Characters of a name that the selector text [[name="..."]] carries
    unchanged into a CSS string: no quotation mark, reverse solidus, line
    break, NUL or surrogate. *)
Definition selector_plain (c : N) : bool :=
  negb ((c =? 0) || (c =? 10) || (c =? 12) || (c =? 13) || (c =? 34) || (c =? 92)
        || ((55296 <=? c) && (c <=? 57343)))%N.

End Dom.

(** ** custom-admin.js: the draft persistence manager and the page-load handler *)
Module AutoSave.
Import Dom.

(** What the script leaves to the browser.

    - [css_query n fields]: the result of [form.querySelector] on the
      selector built around a name [n] that is not carried unchanged into a
      CSS string (escapes, quotation marks, line breaks): a thrown
      exception, null, or the position of an element.
    - [value_setter f v]: the value the control [f] holds after the
      assignment [f.value = v] (conversion of [v] to a string followed by
      the control's own sanitization), or the exception it throws. *)
Class Host : Type := {
  css_query : jsstring -> list Field -> Completion (option nat);
  value_setter : Field -> Json.value -> Completion jsstring
}.

(** The result of a statement: its completion and the page it leaves. *)
Definition Effect : Type := (Completion unit * Page)%type.

(** [list.forEach(f)]: in order, abandoned at the first exception. *)
Fixpoint forEach {A} (f : A -> Page -> Effect) (l : list A) (p : Page) : Effect :=
  match l with
  | [] => (Normal tt, p)
  | a :: r =>
      match f a p with
      | (Normal _, p') => forEach f r p'
      | (Throw e, p') => (Throw e, p')
      end
  end.

(** [form.getAttribute('id') || 'admin-form'] *)
Definition formId (fm : Form) : jsstring :=
  match getAttribute (str "id") (form_attrs fm) with
  | Some i => if truthy i then i else str "admin-form"
  | None => str "admin-form"
  end.

(** The template literal [autosave-${formId}]. *)
Definition storage_key (id : jsstring) : jsstring := str "autosave-" ++ id.

(** [Object.keys(data)], each key with the value [data[name]] reads. *)
Definition Object_entries (data : Json.value) : Completion (list (jsstring * Json.value)) :=
  match data with
  | JNull => Throw TypeError
  | JBool _ => Normal []
  | JNumber _ => Normal []
  | JString s => Normal (imap (fun i c => (decimal (N.of_nat i), JString [c])) s)
  | JArray l => Normal (imap (fun i v => (decimal (N.of_nat i), v)) l)
  | JObject ms => Normal ms
  end.

(** The inputs of a form as the change listener sees them. *)
Definition inputs_of (i : nat) (p : Page) : list Field :=
  match forms p !! i with
  | Some fm => fields fm
  | None => []
  end.

(** The object built by the change listener: one assignment
    [formData[inp.name] = inp.value] per input with a non-empty name. *)
Definition collect_step (formData : Obj.t jsstring) (inp : Field) : Obj.t jsstring :=
  if truthy (name inp) then Obj.assign (name inp) (value inp) formData
  else formData.

Definition collect (inputs : list Field) : Obj.t jsstring :=
  fold_left collect_step inputs [].

(** The listener of the change event. *)
Definition change_handler (i : nat) (id : jsstring) (p : Page) : Effect :=
  match Storage.setItem (storage_key id) (JSON_stringify (collect (inputs_of i p)))
                        (localStorage p) with
  | Normal st => (Normal tt, set_storage st p)
  | Throw e => (Throw e, p)
  end.

(** The listener of the submit event. *)
Definition submit_handler (id : jsstring) (p : Page) : Effect :=
  (Normal tt, set_storage (Storage.removeItem (storage_key id) (localStorage p)) p).

Definition run_handler (h : Handler) (p : Page) : Effect :=
  match h with
  | AutoSaveChange i id => change_handler i id p
  | AutoSaveSubmit id => submit_handler id p
  | Decoration _ => (Normal tt, p)
  end.

(** Listeners of an event on a target, in registration order. *)
Definition handlers_for (t : Target) (ev : EventType) (p : Page) : list Handler :=
  map snd (filter (fun l => l.1 = (t, ev)) (listeners p)).

(** Dispatch: every listener runs; an exception thrown by one is reported
    as uncaught and does not stop the others. *)
Fixpoint run_listeners (hs : list Handler) (p : Page) : list Exception * Page :=
  match hs with
  | [] => ([], p)
  | h :: r =>
      match run_handler h p with
      | (Normal _, p') => run_listeners r p'
      | (Throw e, p') => let '(es, p'') := run_listeners r p' in (e :: es, p'')
      end
  end.

Definition dispatchEvent (t : Target) (ev : EventType) (p : Page) : list Exception * Page :=
  run_listeners (handlers_for t ev p) p.

(** A form is tracked under [id] when the listeners of [initAutoSave]
    are the listeners of its submit event and of the change event of each
    of its inputs. *)
Definition tracked (p : Page) (i : nat) (id : jsstring) : Prop :=
  handlers_for (OnForm i) Submit p = [AutoSaveSubmit id]
  /\ forall j, j < length (inputs_of i p) ->
       handlers_for (OnField i j) Change p = [AutoSaveChange i id].

(** The value of the last input carrying the name [n]. *)
Fixpoint last_value (inputs : list Field) (n : jsstring) : option jsstring :=
  match inputs with
  | [] => None
  | f :: r =>
      match last_value r n with
      | Some v => Some v
      | None => if bool_decide (name f = n) then Some (value f) else None
      end
  end.

(** One entry per named input, holding its current value. *)
Definition named_entries (inputs : list Field) : list (jsstring * jsstring) :=
  map (fun f => (name f, value f)) (filter (fun f => truthy (name f) = true) inputs).

(** A record that holds exactly the entries of the named inputs. *)
Definition snapshot_exact (r : Obj.t jsstring) (inputs : list Field) : Prop :=
  r ≡ₚ named_entries inputs.

Definition field_at (p : Page) (i j : nat) : option Field :=
  match forms p !! i with
  | Some fm => fields fm !! j
  | None => None
  end.

(** What restoring may do to a field: nothing, or fill it when it was
    empty. *)
Definition field_rel (f f' : Field) : Prop :=
  f' = f \/ (value f = [] /\ tag f' = tag f /\ attrs f' = attrs f).

Definition form_rel (fm fm' : Form) : Prop :=
  form_attrs fm' = form_attrs fm /\ Forall2 field_rel (fields fm) (fields fm').

Definition restores (p p' : Page) : Prop :=
  Forall2 form_rel (forms p) (forms p') /\ localStorage p' = localStorage p.

Definition target_form (t : Target) : nat :=
  match t with
  | OnForm i => i
  | OnField i _ => i
  end.

(** The listeners registered on a form or on one of its fields. *)
Definition listeners_on (i : nat) (p : Page) : list (Target * EventType * Handler) :=
  filter (fun l => target_form l.1.1 = i) (listeners p).

(** The listeners [initAutoSave] registers for a form of [n] inputs. *)
Definition new_listeners (i : nat) (id : jsstring) (n : nat)
  : list (Target * EventType * Handler) :=
  map (fun j => (OnField i j, Change, AutoSaveChange i id)) (seq 0 n)
  ++ [(OnForm i, Submit, AutoSaveSubmit id)].

Section WithHost.
Context {host : Host}.

(** [form.querySelector(`[name="${name}"]`)] *)
Definition querySelector_name (fm : Form) (n : jsstring) : Completion (option nat) :=
  if forallb selector_plain n then
    Normal (fst <$> list_find
              (fun f => getAttribute (str "name") (attrs f) = Some n) (fields fm))
  else css_query n (fields fm).

(** The body of the loop over [Object.keys(data)]. *)
Definition restore_entry (i : nat) (entry : jsstring * Json.value) (p : Page) : Effect :=
  match forms p !! i with
  | None => (Normal tt, p)
  | Some fm =>
      match querySelector_name fm entry.1 with
      | Throw e => (Throw e, p)
      | Normal None => (Normal tt, p)
      | Normal (Some j) =>
          match fields fm !! j with
          | None => (Normal tt, p)
          | Some input =>
              if negb (truthy (value input)) then
                match value_setter input entry.2 with
                | Throw e => (Throw e, p)
                | Normal s =>
                    (Normal tt,
                     set_field i j (mkField (tag input) (attrs input) s (str "#fef3c7")) p)
                end
              else (Normal tt, p)
          end
      end
  end.

(** "Load saved data". *)
Definition restore (i : nat) (id : jsstring) (p : Page) : Effect :=
  match Storage.getItem (storage_key id) (localStorage p) with
  | None => (Normal tt, p)
  | Some savedData =>
      if truthy savedData then
        match JSON_parse savedData with
        | Throw e => (Throw e, p)
        | Normal data =>
            match Object_entries data with
            | Throw e => (Throw e, p)
            | Normal entries => forEach (restore_entry i) entries p
            end
        end
      else (Normal tt, p)
  end.

(** "Save on change" and "Clear on submit". *)
Definition attach (i : nat) (id : jsstring) (n : nat) (p : Page) : Page :=
  addEventListener (OnForm i) Submit (AutoSaveSubmit id)
    (fold_left (fun q j => addEventListener (OnField i j) Change (AutoSaveChange i id) q)
               (seq 0 n) p).

(** The callback of [forms.forEach]. *)
Definition initAutoSave_form (i : nat) (p : Page) : Effect :=
  match forms p !! i with
  | None => (Normal tt, p)
  | Some fm =>
      let id := formId fm in
      match restore i id p with
      | (Throw e, p') => (Throw e, p')
      | (Normal _, p') => (Normal tt, attach i id (length (fields fm)) p')
      end
  end.

Definition initAutoSave (p : Page) : Effect :=
  forEach initAutoSave_form (seq 0 (length (forms p))) p.

End WithHost.

(** *** The other features started at page load

    They decorate elements and register listeners; of the modelled state
    they only extend the listener registry. *)

Definition all_fields (p : Page) : list (nat * nat * Field) :=
  concat (imap (fun i fm => imap (fun j f => (i, j, f)) (fields fm)) (forms p)).

Definition register_where (sel : Field -> bool) (ev : EventType) (h : Handler)
           (p : Page) : Page :=
  fold_left (fun q '(i, j, f) => if sel f then addEventListener (OnField i j) ev h q else q)
            (all_fields p) p.

Definition has_attr (a : jsstring) (f : Field) : bool :=
  match getAttribute a (attrs f) with Some _ => true | None => false end.

Definition attr_truthy (a : jsstring) (f : Field) : bool :=
  match getAttribute a (attrs f) with Some v => truthy v | None => false end.

Definition ascii_lower (c : N) : N :=
  if ((65 <=? c) && (c <=? 90))%N then (c + 32)%N else c.

(** Inserts the statistics cards after the content header and animates
    their counters: no form, field or listener of the model is involved. *)
Definition initDashboardStats (p : Page) : Page := p.

(** Click listeners on table rows and header links, a class on the rows. *)
Definition initTableEnhancements (p : Page) : Page := p.

(** Focus on the first input; a character counter (an input listener) on
    every textarea with a maxlength; validation on blur of every required
    control; a confirmation on click of the delete button. *)
Definition initFormEnhancements (p : Page) : Page :=
  let p1 := register_where
              (fun f => bool_decide (tag f = TEXTAREA) && attr_truthy (str "maxlength") f)
              InputEvent (Decoration CharacterCounter) p in
  let p2 := register_where (has_attr (str "required"))
              Blur (Decoration RequiredValidation) p1 in
  register_where
    (fun f => bool_decide (tag f = INPUT)
              && bool_decide (getAttribute (str "name") (attrs f) = Some (str "_delete")))
    Click (Decoration ConfirmDelete) p2.

(** An icon and an input listener on every search input. *)
Definition initSearchEnhancements (p : Page) : Page :=
  register_where
    (fun f => bool_decide (tag f = INPUT)
              && (bool_decide (map ascii_lower <$> getAttribute (str "type") (attrs f)
                               = Some (str "search"))
                  || bool_decide (getAttribute (str "id") (attrs f) = Some (str "searchbar"))))
    InputEvent (Decoration SearchIndicator) p.

(** An IntersectionObserver that adds a class to the observed elements. *)
Definition initAnimations (p : Page) : Page := p.

(** A mouseenter listener on every element with a non-empty title. *)
Definition initTooltips (p : Page) : Page :=
  register_where (attr_truthy (str "title")) MouseEnter (Decoration Tooltip) p.

(** The listener of DOMContentLoaded: "Initialize all features". *)
Definition DOMContentLoaded_handler (p : Page) : Page :=
  let p := initDashboardStats p in
  let p := initTableEnhancements p in
  let p := initFormEnhancements p in
  let p := initSearchEnhancements p in
  let p := initAnimations p in
  initTooltips p.

(** [decorates p p']: [p'] differs from [p] at most by listeners of events
    other than change and submit. *)
Definition decorates (p p' : Page) : Prop :=
  forms p' = forms p
  /\ localStorage p' = localStorage p
  /\ forall t ev, ev = Change \/ ev = Submit ->
       handlers_for t ev p' = handlers_for t ev p.

(** *** A host for running the script on examples

    Every control is a plain text control: the setter stores the string
    it is given (null becomes the empty string), and a name that needs CSS
    escaping makes the selector invalid.  A number is rendered by its
    lexeme, which is exact when the lexeme is the canonical form. *)
Fixpoint to_string (v : Json.value) : jsstring :=
  match v with
  | JNull => str "null"
  | JBool true => str "true"
  | JBool false => str "false"
  | JNumber l => l
  | JString s => s
  | JArray l =>
      (fix join (l : list Json.value) : jsstring :=
         match l with
         | [] => []
         | [e] => match e with JNull => [] | _ => to_string e end
         | e :: r => (match e with JNull => [] | _ => to_string e end) ++ 44%N :: join r
         end) l
  | JObject _ => str "[object Object]"
  end.

Definition text_host : Host := {|
  css_query := fun _ _ => Throw DOMSyntaxError;
  value_setter := fun _ v => match v with JNull => Normal [] | _ => Normal (to_string v) end
|}.

(** Text of a JSON literal written with apostrophes for quotation marks. *)
Definition lit (s : string) : jsstring :=
  map (fun c => if (c =? 39)%N then 34%N else c) (str s).
Arguments lit s%_string.

End AutoSave.

(** ** The tenant-admin currency script *)
Module Currency.

(** "Currency symbol mapping": the own properties of CURRENCY_SYMBOLS. *)
Definition CURRENCY_SYMBOLS : Obj.t jsstring :=
  [ (str "USD", str "$");
    (str "CAD", str "C$");
    (str "GBP", [163%N]);
    (str "EUR", [8364%N]);
    (str "AUD", str "A$");
    (str "NGN", [8358%N]);
    (str "ZAR", str "R");
    (str "KES", str "KSh");
    (str "GHS", str "GH" ++ [8373%N]);
    (str "UGX", str "USh");
    (str "TZS", str "TSh");
    (str "EGP", str "E" ++ [163%N]);
    (str "MAD", str "DH");
    (str "JPY", [165%N]);
    (str "CNY", [165%N]);
    (str "INR", [8377%N]);
    (str "CHF", str "CHF") ].

Definition DOLLAR : jsstring := str "$".
Definition NAIRA : jsstring := [8358%N].

(** CURRENCY_SYMBOLS is an object literal, so a property read that finds
    no own property continues in Object.prototype, whose members are
    built-in functions (listed with the name each function carries) and
    the [__proto__] accessor. *)
Definition Object_prototype_functions : list (jsstring * jsstring) :=
  [ (str "constructor", str "Object");
    (str "__defineGetter__", str "__defineGetter__");
    (str "__defineSetter__", str "__defineSetter__");
    (str "hasOwnProperty", str "hasOwnProperty");
    (str "__lookupGetter__", str "__lookupGetter__");
    (str "__lookupSetter__", str "__lookupSetter__");
    (str "isPrototypeOf", str "isPrototypeOf");
    (str "propertyIsEnumerable", str "propertyIsEnumerable");
    (str "toString", str "toString");
    (str "valueOf", str "valueOf");
    (str "toLocaleString", str "toLocaleString") ].

Inductive Property : Type :=
| PString (s : jsstring)
| PNativeFunction (fname : jsstring)
| PObjectPrototype
| PUndefined.

(** [CURRENCY_SYMBOLS[k]] *)
Definition lookup (k : jsstring) : Property :=
  match Obj.get CURRENCY_SYMBOLS k with
  | Some s => PString s
  | None =>
      match Obj.get Object_prototype_functions k with
      | Some fname => PNativeFunction fname
      | None => if bool_decide (k = Obj.proto_key) then PObjectPrototype else PUndefined
      end
  end.

Definition to_boolean (v : Property) : bool :=
  match v with
  | PString s => truthy s
  | PNativeFunction _ => true
  | PObjectPrototype => true
  | PUndefined => false
  end.

(** Conversion to the string assigned to [value]; a built-in function
    prints in the NativeFunction form. *)
Definition to_string (v : Property) : jsstring :=
  match v with
  | PString s => s
  | PNativeFunction n => str "function " ++ n ++ str "() { [native code] }"
  | PObjectPrototype => str "[object Object]"
  | PUndefined => str "undefined"
  end.

Record SymbolField : Type := mkSymbol {
  value : jsstring;
  backgroundColor : jsstring
}.

(** The part of the document the script touches: the value of
    [#id_currency] and the field [#id_currency_symbol] (None: not found),
    the listeners on the currency field, the pending timeouts (delays in
    milliseconds) and the number of [.help] elements in the wrapper of
    the symbol field (None: no wrapper). *)
Record Page : Type := mkPage {
  currencyField : option jsstring;
  currencySymbolField : option SymbolField;
  changeListeners : nat;
  timeouts : list nat;
  wrapperHelp : option nat
}.

Definition is_default (currentSymbol : jsstring) : bool :=
  negb (truthy currentSymbol)
  || bool_decide (currentSymbol = DOLLAR)
  || bool_decide (currentSymbol = NAIRA).

(** "Function to update currency symbol" *)
Definition updateCurrencySymbol (p : Page) : Page :=
  match currencyField p, currencySymbolField p with
  | Some selectedCurrency, Some f =>
      if truthy selectedCurrency && to_boolean (lookup selectedCurrency) then
        let currentSymbol := trim (value f) in
        if is_default currentSymbol then
          mkPage (currencyField p)
                 (Some (mkSymbol (to_string (lookup selectedCurrency)) (str "#d1fae5")))
                 (changeListeners p) (timeouts p ++ [1000]) (wrapperHelp p)
        else p
      else p
  | _, _ => p
  end.

(** The callback given to setTimeout. *)
Definition timeout_callback (p : Page) : Page :=
  match currencySymbolField p with
  | Some f => mkPage (currencyField p) (Some (mkSymbol (value f) []))
                     (changeListeners p) (timeouts p) (wrapperHelp p)
  | None => p
  end.

(** A change event on the currency field runs every registered listener. *)
Definition change_event (p : Page) : Page :=
  Nat.iter (changeListeners p) updateCurrencySymbol p.

(** "Also trigger on page load if currency is set but symbol is default" *)
Definition load_trigger (p : Page) : bool :=
  match currencyField p, currencySymbolField p with
  | Some c, Some f =>
      truthy c
      && (let currentSymbol := trim (value f) in
          negb (truthy currentSymbol) || bool_decide (currentSymbol = DOLLAR))
  | _, _ => false
  end.

Definition add_listener (p : Page) : Page :=
  mkPage (currencyField p) (currencySymbolField p) (S (changeListeners p))
         (timeouts p) (wrapperHelp p).

Definition add_help (p : Page) : Page :=
  match wrapperHelp p with
  | Some O => mkPage (currencyField p) (currencySymbolField p) (changeListeners p)
                     (timeouts p) (Some 1)
  | _ => p
  end.

(** The listener of DOMContentLoaded. *)
Definition DOMContentLoaded_handler (p : Page) : Page :=
  match currencyField p, currencySymbolField p with
  | Some _, Some _ =>
      let p1 := add_listener p in
      let p2 := if load_trigger p1 then updateCurrencySymbol p1 else p1 in
      add_help p2
  | _, _ => p
  end.

Definition symbol_value (p : Page) : option jsstring :=
  value <$> currencySymbolField p.

End Currency.

(** ** Concrete pages *)
Module Scenario.
Import Dom AutoSave.

Definition text_input (n v : jsstring) : Field :=
  mkField INPUT [(str "type", str "text"); (str "name", n)] v [].

Definition textarea (n v : jsstring) : Field :=
  mkField TEXTAREA [(str "name", n)] v [].

Definition radio (n v : jsstring) : Field :=
  mkField INPUT [(str "type", str "radio"); (str "name", n)] v [].

(** The form of the concrete scenario: [name] and [bio], both empty. *)
Definition profile_form : Form :=
  mkForm [(str "id", str "profile-form")]
         [text_input (str "name") []; textarea (str "bio") []].

Definition profile_key : jsstring := storage_key (str "profile-form").

Definition page_with (fm : Form) (stored : gmap (list N) (list N)) (quota : nat) : Page :=
  mkPage [fm] (Storage.mk stored quota) [].

(** A draft cut short while it was written. *)
Definition truncated_draft : jsstring := lit "{'name':'Ali".

Definition truncated_page : Page :=
  page_with profile_form {[ profile_key := truncated_draft ]} 5000.

Definition alice_draft : jsstring := lit "{'name':'Alice','bio':''}".

Definition alice_page : Page :=
  page_with profile_form {[ profile_key := alice_draft ]} 5000.

(** The same form after the user typed a biography. *)
Definition typed_form : Form :=
  mkForm [(str "id", str "profile-form")]
         [text_input (str "name") []; textarea (str "bio") (str "Engineer")].

Definition typed_page : Page :=
  page_with typed_form {[ profile_key := lit "{'name':'Alice','bio':'Old'}" ]} 5000.

(** A store that accepts nothing. *)
Definition full_page : Page := page_with typed_form ∅ 0.

(** A form with a radio group: two inputs share the name [plan]. *)
Definition plan_form : Form :=
  mkForm [(str "id", str "plan-form")]
         [radio (str "plan") (str "basic"); radio (str "plan") (str "pro")].

Definition plan_page : Page := page_with plan_form ∅ 5000.

(** The pages above once [initAutoSave] has run on them. *)
Definition typed_tracked : Page := (initAutoSave (host := text_host) typed_page).2.
Definition full_tracked : Page := (initAutoSave (host := text_host) full_page).2.
Definition plan_tracked : Page := (initAutoSave (host := text_host) plan_page).2.

(** A page of the tenant form: the selected currency, the symbol field,
    no listener yet, a wrapper without help text. *)
Definition currency_page (cur sym : jsstring) : Currency.Page :=
  Currency.mkPage (Some cur) (Some (Currency.mkSymbol sym [])) 0 [] (Some 0).

(** A record written with insignificant white space. *)
Definition spaced_record : jsstring := lit "{ 'a': 'b' }".

End Scenario.

(** ** Restoring on text controls

    The restore step seen on the list of fields of one form, for a host
    whose setter stores the string it is given. *)
Module Recovery.
Import Dom AutoSave.


(** A field after [input.value = v] and the highlight that follows. *)
Definition highlighted (f : Field) (v : jsstring) : Field :=
  mkField (tag f) (attrs f) v (str "#fef3c7").

(** The position of the first field whose name attribute is [n]. *)
Definition find_name (n : jsstring) (l : list Field) : option nat :=
  fst <$> list_find (fun f => getAttribute (str "name") (attrs f) = Some n) l.

(** The fields of a form after one entry [k : w] of the draft. *)
Definition step_fields (l : list Field) (entry : jsstring * jsstring) : list Field :=
  match find_name entry.1 l with
  | Some j =>
      match l !! j with
      | Some input =>
          if negb (truthy (value input)) then <[j := highlighted input entry.2]> l else l
      | None => l
      end
  | None => l
  end.



End Recovery.

(** ** custom-admin.js: the loading indicators

    [element.classList] is an ordered set of tokens. *)
Module Loading.

Definition LOADING : jsstring := str "loading".

(** [classList.add(token)] *)
Definition classList_add (token : jsstring) (cl : list jsstring) : list jsstring :=
  if bool_decide (token ∈ cl) then cl else cl ++ [token].

(** [classList.remove(token)] *)
Definition classList_remove (token : jsstring) (cl : list jsstring) : list jsstring :=
  filter (fun c => c <> token) cl.

Definition showLoading (element : list jsstring) : list jsstring :=
  classList_add LOADING element.

Definition hideLoading (element : list jsstring) : list jsstring :=
  classList_remove LOADING element.

End Loading.

(** ** The currency field in use *)
Module CurrencyUse.
Import Currency.

(** The user picks a currency: the value of the field changes and its
    change event is dispatched. *)
Definition select_currency (c : jsstring) (p : Page) : Page :=
  match currencyField p with
  | Some _ =>
      change_event (mkPage (Some c) (currencySymbolField p) (changeListeners p)
                           (timeouts p) (wrapperHelp p))
  | None => p
  end.

End CurrencyUse.

(** ** More concrete pages *)
Module Cases.
Import Dom AutoSave Scenario.

(** Two forms without an identifier on one page. *)
Definition search_form : Form :=
  mkForm [] [text_input (str "q") (str "tea")].

Definition comment_form : Form :=
  mkForm [(str "id", [])] [textarea (str "comment") (str "Nice")].

Definition two_forms_page : Page :=
  mkPage [search_form; comment_form] (Storage.mk ∅ 5000) [].

Definition two_forms_tracked : Page :=
  (initAutoSave (host := text_host) two_forms_page).2.

(** A page whose first form has a truncated draft, followed by the
    profile form with a good draft. *)
Definition first_form : Form :=
  mkForm [(str "id", str "first")] [text_input (str "title") []].

Definition broken_then_profile : Page :=
  mkPage [first_form; profile_form]
         (Storage.mk {[ storage_key (str "first") := truncated_draft;
                        profile_key := alice_draft ]} 5000) [].


(** A form with a required input and a free textarea. *)
Definition required_page : Page :=
  mkPage [mkForm [(str "id", str "signup")]
            [mkField INPUT [(str "name", str "email"); (str "required", [])] [] [];
             textarea (str "note") []]]
         (Storage.mk ∅ 5000) [].


End Cases.

(** * Properties *)

(** ** Strings: what QuoteJSONString writes, the parser reads back *)
Section QuoteFacts.

Lemma hex_digit_value (d : N) : (d < 16)%N -> hex_value (hex_digit d) = Some d.
Proof.
  intros Hd.
  assert (Hc : (d = 0 \/ d = 1 \/ d = 2 \/ d = 3 \/ d = 4 \/ d = 5 \/ d = 6 \/ d = 7
          \/ d = 8 \/ d = 9 \/ d = 10 \/ d = 11 \/ d = 12 \/ d = 13 \/ d = 14
          \/ d = 15)%N) by lia.
  repeat (destruct Hc as [-> | Hc]; [reflexivity |]).
  subst d. reflexivity.
Qed.

Lemma hex4_unicode_escape (c : N) :
  (c < 65536)%N ->
  exists h1 h2 h3 h4,
    unicode_escape c = [92; 117; h1; h2; h3; h4]%N /\ hex4 h1 h2 h3 h4 = Some c.
Proof.
  intros Hc. unfold unicode_escape.
  eexists _, _, _, _. split; [reflexivity |].
  unfold hex4.
  rewrite !hex_digit_value by (apply N.mod_upper_bound; lia).
  f_equal.
  replace (c / 256)%N with (c / 16 / 16)%N by (rewrite N.Div0.div_div; reflexivity).
  replace (c / 4096)%N with (c / 16 / 16 / 16)%N by (rewrite !N.Div0.div_div; reflexivity).
  pose proof (N.div_mod c 16) as H0.
  pose proof (N.div_mod (c / 16) 16) as H1.
  pose proof (N.div_mod (c / 16 / 16) 16) as H2.
  assert (H3 : (c / 16 / 16 / 16 < 16)%N).
  { rewrite !N.Div0.div_div. apply N.Div0.div_lt_upper_bound. simpl. lia. }
  rewrite (N.mod_small (c / 16 / 16 / 16) 16) by exact H3.
  lia.
Qed.

Lemma parse_chars_unicode_escape (c : N) (t : jsstring) :
  (c < 65536)%N ->
  parse_chars (unicode_escape c ++ t) = prepend c (parse_chars t).
Proof.
  intros Hc. destruct (hex4_unicode_escape c Hc) as (h1 & h2 & h3 & h4 & -> & Hh).
  cbn [app parse_chars]. cbn [N.eqb Pos.eqb]. rewrite Hh. reflexivity.
Qed.

Lemma parse_chars_plain (c : N) (t : jsstring) :
  c <> 34%N -> c <> 92%N -> (32 <= c)%N ->
  parse_chars (c :: t) = prepend c (parse_chars t).
Proof.
  intros H1 H2 H3. cbn [parse_chars].
  destruct (N.eqb_spec c 34); [contradiction |].
  destruct (N.eqb_spec c 92); [contradiction |].
  destruct (N.ltb_spec c 32); [lia | reflexivity].
Qed.

Lemma parse_chars_escape_unit (c : N) (t : jsstring) :
  parse_chars (escape_unit c ++ t) = prepend c (parse_chars t).
Proof.
  unfold escape_unit.
  repeat (lazymatch goal with
          | |- context [N.eqb c ?k] => destruct (N.eqb_spec c k); [subst c; reflexivity |]
          end).
  destruct (N.ltb_spec c 32).
  - apply parse_chars_unicode_escape. lia.
  - apply parse_chars_plain; assumption.
Qed.

Lemma prepend_prepend_all c s r : prepend c (prepend_all s r) = prepend_all (c :: s) r.
Proof. destruct r; reflexivity. Qed.

Lemma parse_chars_quote_body_len (n : nat) :
  forall s t, length s <= n ->
    parse_chars (quote_body s ++ t) = prepend_all s (parse_chars t).
Proof.
  induction n as [| n IH]; intros s t Hlen.
  - destruct s; [| simpl in Hlen; lia]. simpl. destruct (parse_chars t); reflexivity.
  - destruct s as [| c r]; [simpl; destruct (parse_chars t); reflexivity |].
    simpl in Hlen. cbn [quote_body].
    destruct (is_high_surrogate c) eqn:Hhi.
    + unfold is_high_surrogate in Hhi. apply andb_true_iff in Hhi as [Ha Hb].
      apply N.leb_le in Ha, Hb.
      destruct r as [| d r'].
      * rewrite parse_chars_unicode_escape by lia.
        destruct (parse_chars t); reflexivity.
      * destruct (is_low_surrogate d) eqn:Hlo.
        -- unfold is_low_surrogate in Hlo. apply andb_true_iff in Hlo as [Hc Hd].
           apply N.leb_le in Hc, Hd.
           cbn [app]. rewrite parse_chars_plain by lia.
           rewrite parse_chars_plain by lia.
           rewrite IH by (simpl in Hlen; lia).
           rewrite !prepend_prepend_all. reflexivity.
        -- rewrite <- app_assoc, parse_chars_unicode_escape by lia.
           rewrite IH by lia. apply prepend_prepend_all.
    + destruct (is_low_surrogate c) eqn:Hlo.
      * unfold is_low_surrogate in Hlo. apply andb_true_iff in Hlo as [Hc Hd].
        apply N.leb_le in Hc, Hd.
        rewrite <- app_assoc, parse_chars_unicode_escape by lia.
        rewrite IH by lia. apply prepend_prepend_all.
      * rewrite <- app_assoc, parse_chars_escape_unit.
        rewrite IH by lia. apply prepend_prepend_all.
Qed.

(** A quoted string is read back as the string that was quoted. *)
Lemma parse_chars_quote (s rest : jsstring) :
  parse_chars (quote_body s ++ 34%N :: rest) = POk s rest.
Proof.
  rewrite (parse_chars_quote_body_len (length s)) by lia.
  simpl. rewrite app_nil_r. reflexivity.
Qed.

End QuoteFacts.

(** ** The parser never exhausts its recursion budget *)
Section ParserBudget.

Lemma skip_ws_length (s : jsstring) : length (skip_ws s) <= length s.
Proof.
  induction s as [| c r IH]; simpl; [lia |]. destruct (is_ws c); simpl; lia.
Qed.

Lemma skip_ws_cons (s : jsstring) (c : N) (r : jsstring) :
  skip_ws s = c :: r -> length r < length s.
Proof. intros H. pose proof (skip_ws_length s) as Hl. rewrite H in Hl. simpl in Hl. lia. Qed.

Lemma prepend_ok (c : N) (x : presult jsstring) (t rest : jsstring) :
  prepend c x = POk t rest -> exists t', x = POk t' rest.
Proof. destruct x; simpl; [intros [= <- <-]; eauto | discriminate | discriminate]. Qed.

Lemma prepend_fuel (c : N) (x : presult jsstring) : prepend c x = PFuel -> x = PFuel.
Proof. destruct x; simpl; congruence. Qed.

Lemma parse_chars_budget (n : nat) :
  forall s, length s <= n ->
    parse_chars s <> PFuel
    /\ forall t rest, parse_chars s = POk t rest -> length rest < length s.
Proof.
  induction n as [| n IH]; intros s Hn.
  - destruct s; [| simpl in Hn; lia]. simpl. split; [discriminate | discriminate].
  - destruct s as [| c r]; [simpl; split; discriminate |].
    simpl in Hn. cbn [parse_chars].
    destruct (c =? 34)%N; [split; [discriminate | intros t rest [= <- <-]; simpl; lia] |].
    destruct (c =? 92)%N.
    + destruct r as [| e r1]; [split; discriminate |].
      destruct (e =? 117)%N.
      * destruct r1 as [| h1 [| h2 [| h3 [| h4 r2]]]]; try (split; discriminate).
        destruct (hex4 h1 h2 h3 h4); [| split; discriminate].
        destruct (IH r2 ltac:(simpl in Hn; lia)) as [Hf Hr].
        split; [intros H; apply prepend_fuel in H; contradiction |].
        intros t rest H. apply prepend_ok in H as [t' H]. apply Hr in H. simpl. lia.
      * destruct (unescape e); [| split; discriminate].
        destruct (IH r1 ltac:(simpl in Hn; lia)) as [Hf Hr].
        split; [intros H; apply prepend_fuel in H; contradiction |].
        intros t rest H. apply prepend_ok in H as [t' H]. apply Hr in H. simpl. lia.
    + destruct (c <? 32)%N; [split; discriminate |].
      destruct (IH r ltac:(lia)) as [Hf Hr].
      split; [intros H; apply prepend_fuel in H; contradiction |].
      intros t rest H. apply prepend_ok in H as [t' H]. apply Hr in H. simpl. lia.
Qed.

Lemma span_digits_length (s : jsstring) : length (span_digits s).2 <= length s.
Proof.
  induction s as [| c r IH]; simpl; [lia |].
  destruct (is_digit c); [| simpl; lia].
  destruct (span_digits r) as [ds rest]. simpl in *. lia.
Qed.

Lemma parse_number_budget (s : jsstring) :
  parse_number s <> PFuel
  /\ forall l rest, parse_number s = POk l rest -> length rest < length s.
Proof.
  unfold parse_number.
  set (pre := match s with
              | c :: r => if (c =? 45)%N then ([c], r) else ([], s)
              | [] => ([], s)
              end).
  assert (Hpre : length pre.2 <= length s).
  { subst pre. destruct s as [| c r]; [simpl; lia |]. destruct (c =? 45)%N; simpl; lia. }
  destruct pre as [sign s1]. simpl in Hpre.
  destruct (parse_int s1) as [[i s2] |] eqn:Hi; [| split; discriminate].
  assert (H2 : length s2 < length s1).
  { unfold parse_int in Hi. destruct s1 as [| c r]; [discriminate |].
    destruct (c =? 48)%N; [injection Hi as <- <-; simpl; lia |].
    destruct (is_digit c); [| discriminate].
    pose proof (span_digits_length r) as Hs. destruct (span_digits r) as [ds rest].
    injection Hi as <- <-. simpl in *. lia. }
  destruct (parse_frac s2) as [[f s3] |] eqn:Hf; [| split; discriminate].
  assert (H3 : length s3 <= length s2).
  { unfold parse_frac in Hf. destruct s2 as [| c r]; [injection Hf as <- <-; simpl; lia |].
    destruct (c =? 46)%N; [| injection Hf as <- <-; simpl; lia].
    pose proof (span_digits_length r) as Hs. destruct (span_digits r) as [[| d ds] rest];
      [discriminate |]. injection Hf as <- <-. simpl in *. lia. }
  destruct (parse_exp s3) as [[e s4] |] eqn:He; [| split; discriminate].
  assert (H4 : length s4 <= length s3).
  { unfold parse_exp in He. destruct s3 as [| c r]; [injection He as <- <-; simpl; lia |].
    destruct ((c =? 101) || (c =? 69))%N; [| injection He as <- <-; simpl; lia].
    set (sg := match r with
               | g :: r' => if ((g =? 43) || (g =? 45))%N then ([g], r') else ([], r)
               | [] => ([], r)
               end) in He.
    assert (Hsg : length sg.2 <= length r).
    { subst sg. destruct r as [| g r']; [simpl; lia |].
      destruct ((g =? 43) || (g =? 45))%N; simpl; lia. }
    destruct sg as [sign' r1]. simpl in Hsg.
    pose proof (span_digits_length r1) as Hs. destruct (span_digits r1) as [[| d ds] rest];
      [discriminate |]. injection He as <- <-. simpl in *. lia. }
  split; [discriminate |]. intros l rest [= <- <-]. lia.
Qed.

Lemma strip_prefix_length (p s rest : jsstring) :
  strip_prefix p s = Some rest -> length rest <= length s.
Proof.
  revert s. induction p as [| a p IH]; intros [| b s]; simpl; try discriminate.
  - intros [= <-]. simpl. lia.
  - intros [= <-]. simpl. lia.
  - destruct (a =? b)%N; [| discriminate]. intros H. apply IH in H. lia.
Qed.

Lemma parse_members_shrinks pv (n : nat) :
  shrinks pv ->
  forall acc s v rest, parse_members pv n acc s = POk v rest -> length rest < length s.
Proof.
  intros Hpv. induction n as [| n IH]; intros acc s v rest; cbn [parse_members];
    [discriminate |].
  destruct (skip_ws s) as [| c r] eqn:Hs; [discriminate |].
  apply skip_ws_cons in Hs.
  destruct (c =? 34)%N; [| discriminate].
  destruct (parse_chars r) as [k r1 | |] eqn:Hk; [| discriminate | discriminate].
  apply (proj2 (parse_chars_budget (length r) r (le_n _))) in Hk.
  destruct (skip_ws r1) as [| c1 r2] eqn:Hs1; [discriminate |].
  apply skip_ws_cons in Hs1.
  destruct (c1 =? 58)%N; [| discriminate].
  destruct (pv r2) as [w r3 | |] eqn:Hv; [| discriminate | discriminate].
  apply Hpv in Hv.
  destruct (skip_ws r3) as [| c3 r4] eqn:Hs3; [discriminate |].
  apply skip_ws_cons in Hs3.
  destruct (c3 =? 44)%N; [intros H; apply IH in H; lia |].
  destruct (c3 =? 125)%N; [| discriminate].
  intros [= <- <-]. lia.
Qed.

Lemma parse_members_budget pv (n : nat) :
  shrinks pv ->
  forall acc s, length s < n ->
    (forall t, length t < length s -> pv t <> PFuel) ->
    parse_members pv n acc s <> PFuel.
Proof.
  intros Hpv. induction n as [| n IH]; intros acc s Hn Hfuel; [lia |].
  cbn [parse_members].
  destruct (skip_ws s) as [| c r] eqn:Hs; [discriminate |].
  apply skip_ws_cons in Hs.
  destruct (c =? 34)%N; [| discriminate].
  destruct (parse_chars_budget (length r) r (le_n _)) as [Hcf Hcr].
  destruct (parse_chars r) as [k r1 | |] eqn:Hk; [| discriminate | contradiction].
  specialize (Hcr _ _ eq_refl).
  destruct (skip_ws r1) as [| c1 r2] eqn:Hs1; [discriminate |].
  apply skip_ws_cons in Hs1.
  destruct (c1 =? 58)%N; [| discriminate].
  destruct (pv r2) as [w r3 | |] eqn:Hv; [| discriminate | exfalso; eapply Hfuel; [| eauto]; lia].
  apply Hpv in Hv.
  destruct (skip_ws r3) as [| c3 r4] eqn:Hs3; [discriminate |].
  apply skip_ws_cons in Hs3.
  destruct (c3 =? 44)%N.
  - apply IH; [lia |]. intros t Ht. apply Hfuel. lia.
  - destruct (c3 =? 125)%N; discriminate.
Qed.

Lemma parse_elements_shrinks pv (n : nat) :
  shrinks pv ->
  forall acc s v rest, parse_elements pv n acc s = POk v rest -> length rest < length s.
Proof.
  intros Hpv. induction n as [| n IH]; intros acc s v rest; cbn [parse_elements];
    [discriminate |].
  destruct (pv s) as [w r1 | |] eqn:Hv; [| discriminate | discriminate].
  apply Hpv in Hv.
  destruct (skip_ws r1) as [| c r2] eqn:Hs; [discriminate |].
  apply skip_ws_cons in Hs.
  destruct (c =? 44)%N; [intros H; apply IH in H; lia |].
  destruct (c =? 93)%N; [| discriminate].
  intros [= <- <-]. lia.
Qed.

Lemma parse_elements_budget pv (n : nat) :
  shrinks pv ->
  forall acc s, length s < n ->
    (forall t, length t <= length s -> pv t <> PFuel) ->
    parse_elements pv n acc s <> PFuel.
Proof.
  intros Hpv. induction n as [| n IH]; intros acc s Hn Hfuel; [lia |].
  cbn [parse_elements].
  destruct (pv s) as [w r1 | |] eqn:Hv; [| discriminate | exfalso; eapply Hfuel; [| eauto]; lia].
  apply Hpv in Hv.
  destruct (skip_ws r1) as [| c r2] eqn:Hs; [discriminate |].
  apply skip_ws_cons in Hs.
  destruct (c =? 44)%N.
  - apply IH; [lia |]. intros t Ht. apply Hfuel. lia.
  - destruct (c =? 93)%N; discriminate.
Qed.

Lemma parse_value_shrinks (f : nat) : shrinks (parse_value f).
Proof.
  induction f as [| f IH]; intros s v rest; cbn [parse_value]; [discriminate |].
  destruct (skip_ws s) as [| c r] eqn:Hs; [discriminate |].
  apply skip_ws_cons in Hs.
  destruct (c =? 123)%N.
  { destruct (skip_ws r) as [| c' r'] eqn:Hs'; [discriminate |].
    apply skip_ws_cons in Hs'.
    destruct (c' =? 125)%N; [intros [= <- <-]; lia |].
    intros H. apply (parse_members_shrinks _ _ IH) in H. lia. }
  destruct (c =? 91)%N.
  { destruct (skip_ws r) as [| c' r'] eqn:Hs'; [discriminate |].
    apply skip_ws_cons in Hs'.
    destruct (c' =? 93)%N; [intros [= <- <-]; lia |].
    intros H. apply (parse_elements_shrinks _ _ IH) in H. lia. }
  destruct (c =? 34)%N.
  { destruct (parse_chars r) as [t r1 | |] eqn:Hk; [| discriminate | discriminate].
    apply (proj2 (parse_chars_budget (length r) r (le_n _))) in Hk.
    intros [= <- <-]. lia. }
  destruct (c =? 116)%N.
  { destruct (strip_prefix (str "rue") r) as [r1 |] eqn:Hp; [| discriminate].
    apply strip_prefix_length in Hp. intros [= <- <-]. lia. }
  destruct (c =? 102)%N.
  { destruct (strip_prefix (str "alse") r) as [r1 |] eqn:Hp; [| discriminate].
    apply strip_prefix_length in Hp. intros [= <- <-]. lia. }
  destruct (c =? 110)%N.
  { destruct (strip_prefix (str "ull") r) as [r1 |] eqn:Hp; [| discriminate].
    apply strip_prefix_length in Hp. intros [= <- <-]. lia. }
  destruct (parse_number (c :: r)) as [l r1 | |] eqn:Hn; [| discriminate | discriminate].
  apply (proj2 (parse_number_budget (c :: r))) in Hn. simpl in Hn.
  intros [= <- <-]. lia.
Qed.

(** With more budget than characters, the parser answers with a value or
    a syntax error. *)
Lemma parse_value_fuel (f : nat) :
  forall s, length s < f -> parse_value f s <> PFuel.
Proof.
  induction f as [| f IH]; intros s Hf; [lia |]. cbn [parse_value].
  destruct (skip_ws s) as [| c r] eqn:Hs; [discriminate |].
  apply skip_ws_cons in Hs.
  destruct (c =? 123)%N.
  { destruct (skip_ws r) as [| c' r'] eqn:Hs'; [discriminate |].
    destruct (c' =? 125)%N; [discriminate |].
    apply parse_members_budget; [apply parse_value_shrinks | lia |].
    intros t Ht. apply IH. lia. }
  destruct (c =? 91)%N.
  { destruct (skip_ws r) as [| c' r'] eqn:Hs'; [discriminate |].
    destruct (c' =? 93)%N; [discriminate |].
    apply parse_elements_budget; [apply parse_value_shrinks | lia |].
    intros t Ht. apply IH. lia. }
  destruct (c =? 34)%N.
  { destruct (parse_chars_budget (length r) r (le_n _)) as [Hcf _].
    destruct (parse_chars r); [discriminate | discriminate | contradiction]. }
  destruct (c =? 116)%N; [destruct (strip_prefix _ r); discriminate |].
  destruct (c =? 102)%N; [destruct (strip_prefix _ r); discriminate |].
  destruct (c =? 110)%N; [destruct (strip_prefix _ r); discriminate |].
  destruct (parse_number_budget (c :: r)) as [Hnf _].
  destruct (parse_number (c :: r)); [discriminate | discriminate | contradiction].
Qed.

(** [JSON_parse] throws only on text that is not one JSON value. *)
Lemma JSON_parse_budget (text : jsstring) :
  parse_value (S (length text)) text <> PFuel.
Proof. apply parse_value_fuel. lia. Qed.

End ParserBudget.

(** ** Array-index keys *)
Section ArrayIndexFacts.

Lemma digits_value_snoc (s : jsstring) (c acc : N) :
  digits_value (s ++ [c]) acc = (digits_value s acc * 10 + (c - 48))%N.
Proof. revert acc. induction s as [| d s IH]; intros acc; simpl; [reflexivity | apply IH]. Qed.

Lemma digits_value_ge (s : jsstring) (acc : N) : (acc <= digits_value s acc)%N.
Proof.
  revert acc. induction s as [| d s IH]; intros acc; simpl; [lia |].
  specialize (IH (acc * 10 + (d - 48))%N). lia.
Qed.

Lemma digits_value_pos (s : jsstring) :
  s <> [] -> nz s -> forallb is_digit s = true -> (0 < digits_value s 0)%N.
Proof.
  destruct s as [| c r]; [congruence |]. intros _ Hnz Hd.
  cbn [nz forallb digits_value] in *.
  apply andb_true_iff in Hd as [Hc _]. unfold is_digit in Hc.
  apply andb_true_iff in Hc as [Ha Hb]. apply N.leb_le in Ha, Hb.
  pose proof (digits_value_ge r (0 * 10 + (c - 48))). lia.
Qed.

Lemma nz_app_l (s : jsstring) (c : N) : nz (s ++ [c]) -> nz s.
Proof. destruct s; simpl; auto. Qed.

Lemma digits_value_inj (s : jsstring) :
  forall s', nz s -> nz s' ->
    forallb is_digit s = true -> forallb is_digit s' = true ->
    digits_value s 0 = digits_value s' 0 -> s = s'.
Proof.
  induction s as [| c s IH] using rev_ind; intros s' Hn Hn' Hd Hd' Hv.
  - destruct s' as [| c' r']; [reflexivity |].
    pose proof (digits_value_pos (c' :: r') ltac:(discriminate) Hn' Hd').
    simpl in Hv. simpl in H. lia.
  - destruct s' as [| c' s' _] using rev_ind.
    + pose proof (digits_value_pos (s ++ [c])
                    ltac:(destruct s; discriminate) Hn Hd).
      simpl in Hv. lia.
    + rewrite !digits_value_snoc in Hv.
      rewrite forallb_app in Hd, Hd'. simpl in Hd, Hd'.
      apply andb_true_iff in Hd as [Hd Hc], Hd' as [Hd' Hc'].
      rewrite andb_true_r in Hc, Hc'. unfold is_digit in Hc, Hc'.
      apply andb_true_iff in Hc as [Ha Hb], Hc' as [Ha' Hb'].
      apply N.leb_le in Ha, Hb, Ha', Hb'.
      assert (c = c' /\ digits_value s 0 = digits_value s' 0) as [-> Hv'] by lia.
      f_equal. apply IH; eauto using nz_app_l.
Qed.

Lemma array_index_spec (k : jsstring) (i : N) :
  array_index k = Some i ->
  forallb is_digit k = true /\ digits_value k 0 = i /\ (k = [48%N] \/ (k <> [] /\ nz k)).
Proof.
  unfold array_index. destruct k as [| c r]; [discriminate |].
  destruct (forallb is_digit (c :: r)) eqn:Hd; [| discriminate].
  cbn [andb].
  destruct (negb (c =? 48)%N || match r with [] => true | _ :: _ => false end) eqn:Hz;
    [| discriminate].
  destruct (digits_value (c :: r) 0 <=? 4294967294)%N; [| discriminate].
  intros [= <-]. split; [reflexivity |]. split; [reflexivity |].
  apply orb_true_iff in Hz as [Hz | Hz].
  - right. split; [discriminate |]. simpl.
    apply negb_true_iff in Hz. apply N.eqb_neq in Hz. exact Hz.
  - destruct r; [| discriminate].
    destruct (N.eqb_spec c 48) as [-> | Hne]; [left; reflexivity |].
    right. split; [discriminate | exact Hne].
Qed.

(** Two keys denoting the same array index are the same key. *)
Lemma array_index_inj (k k' : jsstring) (i : N) :
  array_index k = Some i -> array_index k' = Some i -> k = k'.
Proof.
  intros H H'. apply array_index_spec in H as (Hd & Hv & Hc).
  apply array_index_spec in H' as (Hd' & Hv' & Hc').
  destruct Hc as [-> | [Hne Hn]], Hc' as [-> | [Hne' Hn']]; [reflexivity | | |].
  - pose proof (digits_value_pos k' Hne' Hn' Hd'). simpl in Hv. lia.
  - pose proof (digits_value_pos k Hne Hn Hd). simpl in Hv'. lia.
  - apply digits_value_inj; auto. congruence.
Qed.

End ArrayIndexFacts.

(** ** Objects: own-property order is kept by every update *)
Section ObjFacts.
Context {V : Type}.
Implicit Types (o : Obj.t V) (k : jsstring) (v : V).

Lemma get_None_keys o k : Obj.get o k = None <-> k ∉ Obj.keys o.
Proof.
  induction o as [| [k' v'] r IH]; simpl.
  - split; [intros _; apply not_elem_of_nil | reflexivity].
  - case_bool_decide as Hk.
    + subst. split; [discriminate | intros H; exfalso; apply H; left].
    + rewrite IH, not_elem_of_cons. split; [intros; split; congruence | tauto].
Qed.

Lemma has_keys o k : Obj.has o k = true <-> k ∈ Obj.keys o.
Proof.
  unfold Obj.has. destruct (Obj.get o k) eqn:Hg.
  - split; [intros _ | reflexivity].
    destruct (decide (k ∈ Obj.keys o)) as [| Hn]; [assumption |].
    apply get_None_keys in Hn. congruence.
  - split; [discriminate |]. intros Hin. apply get_None_keys in Hg. contradiction.
Qed.

Lemma has_false_keys o k : Obj.has o k = false <-> k ∉ Obj.keys o.
Proof. rewrite <- has_keys. destruct (Obj.has o k); split; congruence. Qed.

Lemma keys_replace k v o : Obj.keys (Obj.replace k v o) = Obj.keys o.
Proof.
  induction o as [| [k' v'] r IH]; simpl; [reflexivity |].
  case_bool_decide; simpl; [subst; reflexivity | f_equal; exact IH].
Qed.

Lemma keys_app o1 o2 : Obj.keys (o1 ++ o2) = Obj.keys o1 ++ Obj.keys o2.
Proof. apply map_app. Qed.

Lemma keys_insert_index i k v o x :
  x ∈ Obj.keys (Obj.insert_index i k v o) <-> x = k \/ x ∈ Obj.keys o.
Proof.
  induction o as [| [k' v'] r IH]; simpl.
  - rewrite list_elem_of_singleton. split; [tauto | intros [? | H]; [assumption |]].
    inversion H.
  - destruct (array_index k') as [j |]; [destruct (j <? i)%N |]; simpl;
      rewrite ?elem_of_cons, ?IH; simpl; rewrite ?elem_of_cons; tauto.
Qed.

Lemma wf_insert_index i k v o :
  Obj.wf o -> k ∉ Obj.keys o -> array_index k = Some i ->
  Obj.wf (Obj.insert_index i k v o).
Proof.
  unfold Obj.wf. intros Hwf Hk Hi.
  induction o as [| [k' v'] r IH]; simpl.
  - repeat constructor.
  - simpl in Hwf, Hk. apply StronglySorted_cons in Hwf as [Hall Hr].
    apply not_elem_of_cons in Hk as [Hne Hk].
    rewrite Forall_forall in Hall.
    assert (Hkk' : forall j, array_index k' = Some j -> ~ (j < i)%N ->
              Forall (Obj.before k) (k' :: Obj.keys r)).
    { intros j Hj Hge. apply Forall_forall. intros p Hp. split.
      - intros ->. apply elem_of_cons in Hp as [-> | Hp]; [congruence | contradiction].
      - intros j2 Hj2. exists i. split; [assumption |].
        apply elem_of_cons in Hp as [-> | Hp].
        + assert (j2 = j) by congruence. subst j2.
          assert (j <> i) by (intros ->; apply Hne; eauto using array_index_inj).
          lia.
        + destruct (Hall p Hp) as [_ Hb]. destruct (Hb j2 Hj2) as (j1 & Hj1 & Hlt).
          assert (j1 = j) by congruence. lia. }
    destruct (array_index k') as [j |] eqn:Hj.
    + destruct (N.ltb_spec j i) as [Hlt | Hge]; simpl.
      * apply StronglySorted_cons. split; [| apply IH; assumption].
        apply Forall_forall. intros p Hp. apply keys_insert_index in Hp as [-> | Hp].
        -- split; [congruence |]. intros i2 Hi2. exists j. split; [assumption |].
           assert (i2 = i) by congruence. subst i2. exact Hlt.
        -- apply Hall, Hp.
      * apply StronglySorted_cons. split; [apply (Hkk' j eq_refl); lia |].
        apply StronglySorted_cons. split; [apply Forall_forall, Hall | exact Hr].
    + simpl. apply StronglySorted_cons. split.
      * apply Forall_forall. intros p Hp. split.
        -- intros ->. apply elem_of_cons in Hp as [-> | Hp]; [congruence | contradiction].
        -- intros j2 Hj2. exfalso. apply elem_of_cons in Hp as [-> | Hp]; [congruence |].
           destruct (Hall p Hp) as [_ Hb]. destruct (Hb j2 Hj2) as (j1 & Hj1 & _).
           congruence.
      * apply StronglySorted_cons. split; [apply Forall_forall, Hall | exact Hr].
Qed.

(** CreateDataProperty keeps the own-property order. *)
Lemma wf_define k v o : Obj.wf o -> Obj.wf (Obj.define k v o).
Proof.
  intros Hwf. unfold Obj.define. destruct (Obj.has o k) eqn:Hh.
  - unfold Obj.wf. rewrite keys_replace. exact Hwf.
  - apply has_false_keys in Hh.
    destruct (array_index k) as [i |] eqn:Hi; [apply wf_insert_index; assumption |].
    unfold Obj.wf. rewrite keys_app. apply StronglySorted_app. split; [| split].
    + intros x1 x2 Hx1 Hx2. apply list_elem_of_singleton in Hx2 as ->.
      split; [intros ->; contradiction |]. intros i2 Hi2. simpl in Hi2. congruence.
    + exact Hwf.
    + repeat constructor.
Qed.

Lemma wf_assign k v o : Obj.wf o -> Obj.wf (Obj.assign k v o).
Proof.
  intros Hwf. unfold Obj.assign.
  destruct (bool_decide (k = Obj.proto_key) && negb (Obj.has o k));
    [exact Hwf | apply wf_define, Hwf].
Qed.

Lemma insert_index_last i k v o :
  Forall (fun k' => exists j, array_index k' = Some j /\ (j < i)%N) (Obj.keys o) ->
  Obj.insert_index i k v o = o ++ [(k, v)].
Proof.
  induction o as [| [k' v'] r IH]; simpl; intros Hall; [reflexivity |].
  apply Forall_cons in Hall as [(j & Hj & Hlt) Hall]. rewrite Hj.
  destruct (N.ltb_spec j i); [| lia]. f_equal. apply IH, Hall.
Qed.

(** Defining a key that may follow all present keys appends it. *)
Lemma define_last k v o :
  StronglySorted Obj.before (Obj.keys o ++ [k]) -> Obj.define k v o = o ++ [(k, v)].
Proof.
  intros Hs. apply StronglySorted_app in Hs as (Hb & _ & _).
  assert (Hk : k ∉ Obj.keys o).
  { intros Hin. destruct (Hb k k Hin) as [Hne _]; [left | congruence]. }
  unfold Obj.define. apply has_false_keys in Hk. rewrite Hk.
  destruct (array_index k) as [i |] eqn:Hi; [| reflexivity].
  apply insert_index_last. apply Forall_forall. intros k' Hk'.
  destruct (Hb k' k Hk') as [_ Hlt]; [left |]. apply Hlt, Hi.
Qed.

End ObjFacts.

(** ** Records: what JSON.stringify writes, JSON.parse reads back *)
Section RecordFacts.

Abbreviation conv := (map (fun m : jsstring * jsstring => (m.1, JString m.2))).

Lemma member_text_app (k v tail : jsstring) :
  member_text (k, v) ++ tail
  = 34%N :: quote_body k ++ 34%N :: 58%N :: 34%N :: quote_body v ++ 34%N :: tail.
Proof.
  unfold member_text, quote. simpl.
  repeat (rewrite <- app_assoc; simpl). reflexivity.
Qed.

Lemma parse_value_string (f : nat) (s t : jsstring) :
  parse_value (S f) (34%N :: quote_body s ++ 34%N :: t) = POk (JString s) t.
Proof.
  cbn [parse_value skip_ws is_ws N.eqb Pos.eqb orb].
  rewrite parse_chars_quote. reflexivity.
Qed.

Lemma parse_members_step pv n (acc : Obj.t value) (k v tail : jsstring) :
  (forall s t, pv (34%N :: quote_body s ++ 34%N :: t) = POk (JString s) t) ->
  parse_members pv (S n) acc (member_text (k, v) ++ tail)
  = match skip_ws tail with
    | c3 :: r4 =>
        if (c3 =? 44)%N then parse_members pv n (Obj.define k (JString v) acc) r4
        else if (c3 =? 125)%N then POk (JObject (Obj.define k (JString v) acc)) r4
        else PErr
    | [] => PErr
    end.
Proof.
  intros Hpv. rewrite member_text_app.
  cbn [parse_members skip_ws is_ws N.eqb Pos.eqb orb].
  rewrite parse_chars_quote.
  cbn [skip_ws is_ws N.eqb Pos.eqb orb].
  rewrite Hpv. reflexivity.
Qed.

Lemma members_text_cons (m m' : jsstring * jsstring) ms :
  members_text (m :: m' :: ms) = member_text m ++ 44%N :: members_text (m' :: ms).
Proof. reflexivity. Qed.

Lemma parse_members_text pv :
  (forall s t, pv (34%N :: quote_body s ++ 34%N :: t) = POk (JString s) t) ->
  forall ms m pre n rest,
    StronglySorted Obj.before (Obj.keys (pre ++ m :: ms)) ->
    length ms < n ->
    parse_members pv n (conv pre) (members_text (m :: ms) ++ 125%N :: rest)
    = POk (JObject (conv (pre ++ m :: ms))) rest.
Proof.
  intros Hpv ms. induction ms as [| m' ms IH]; intros [k v] pre n rest Hs Hn.
  - destruct n as [| n]; [lia |].
    cbn [members_text]. rewrite parse_members_step by exact Hpv.
    cbn [skip_ws is_ws N.eqb Pos.eqb orb].
    rewrite define_last.
    + rewrite map_app. reflexivity.
    + unfold Obj.keys in *. rewrite map_map. rewrite map_app in Hs. exact Hs.
  - destruct n as [| n]; [lia |].
    rewrite members_text_cons, <- app_assoc.
    rewrite parse_members_step by exact Hpv.
    cbn [app skip_ws is_ws N.eqb Pos.eqb orb].
    rewrite define_last.
    + replace (conv pre ++ [(k, JString v)]) with (conv (pre ++ [(k, v)]))
        by (rewrite map_app; reflexivity).
      rewrite IH.
      * rewrite <- app_assoc. reflexivity.
      * rewrite <- app_assoc. exact Hs.
      * simpl in Hn. lia.
    + unfold Obj.keys in *. rewrite map_map.
      replace (pre ++ (k, v) :: m' :: ms) with ((pre ++ [(k, v)]) ++ m' :: ms) in Hs
        by (rewrite <- app_assoc; reflexivity).
      rewrite map_app in Hs. apply StronglySorted_app_1_l in Hs.
      rewrite map_app in Hs. exact Hs.
Qed.

Lemma members_text_length ms : length ms <= length (members_text ms).
Proof.
  induction ms as [| [k v] [| m' ms] IH].
  - vm_compute. lia.
  - unfold members_text, member_text, quote. simpl. lia.
  - rewrite members_text_cons, length_app. simpl in *. lia.
Qed.

Lemma parse_value_object (g : nat) (t : jsstring) :
  parse_value (S g) (123%N :: 34%N :: t)
  = parse_members (parse_value g) (S (length (34%N :: t))) [] (34%N :: t).
Proof. reflexivity. Qed.

(** The text written for an object in own-property order parses to the
    same object. *)
Lemma JSON_parse_stringify (r : Obj.t jsstring) :
  Obj.wf r -> JSON_parse (JSON_stringify r) = Normal (of_record r).
Proof.
  intros Hwf. unfold JSON_parse, JSON_stringify.
  destruct r as [| m ms].
  - reflexivity.
  - assert (Hhead : exists t, members_text (m :: ms) ++ [125%N] = 34%N :: t).
    { destruct m as [k v]. destruct ms as [| m' ms].
      - cbn [members_text]. rewrite member_text_app. eauto.
      - rewrite members_text_cons, <- app_assoc, member_text_app. eauto. }
    destruct Hhead as [t Ht]. rewrite Ht.
    change (length (123%N :: 34%N :: t)) with (S (S (length t))).
    rewrite parse_value_object. rewrite <- Ht.
    assert (Hn : length ms < S (length (members_text (m :: ms) ++ [125%N]))).
    { pose proof (members_text_length (m :: ms)). rewrite length_app. simpl in *. lia. }
    pose proof (parse_members_text _ (parse_value_string (S (length t))) ms m [] _ []
                  Hwf Hn) as Hp.
    cbn [map app] in Hp. rewrite Hp. reflexivity.
Qed.

Lemma to_record_of_record (r : Obj.t jsstring) : to_record (of_record r) = Some r.
Proof.
  unfold of_record, to_record.
  induction r as [| [k v] r IH]; simpl; [reflexivity |]. rewrite IH. reflexivity.
Qed.

Lemma decode_encode (r : Obj.t jsstring) : Obj.wf r -> decode (encode r) = Some r.
Proof.
  intros Hwf. unfold decode, encode.
  rewrite JSON_parse_stringify by exact Hwf. apply to_record_of_record.
Qed.

End RecordFacts.

(** ** Reading an object after an update *)
Section ObjGetFacts.
Context {V : Type}.
Implicit Types (o : Obj.t V) (k : jsstring) (v : V).

Lemma get_replace k v o k' :
  k ∈ Obj.keys o ->
  Obj.get (Obj.replace k v o) k' = if bool_decide (k = k') then Some v else Obj.get o k'.
Proof.
  induction o as [| [k0 v0] r IH]; simpl; intros Hin.
  - inversion Hin.
  - destruct (decide (k0 = k)) as [-> | Hne].
    + rewrite bool_decide_eq_true_2 by reflexivity. simpl.
      case_bool_decide; reflexivity.
    + rewrite (bool_decide_eq_false_2 (k0 = k)) by exact Hne. simpl.
      apply elem_of_cons in Hin as [-> | Hin]; [congruence |].
      rewrite IH by exact Hin.
      repeat case_bool_decide; congruence.
Qed.

Lemma get_insert_index i k v o k' :
  k ∉ Obj.keys o ->
  Obj.get (Obj.insert_index i k v o) k'
  = if bool_decide (k = k') then Some v else Obj.get o k'.
Proof.
  induction o as [| [k0 v0] r IH]; simpl; intros Hk.
  - reflexivity.
  - apply not_elem_of_cons in Hk as [Hne Hk].
    destruct (array_index k0) as [j |]; [destruct (j <? i)%N |]; simpl;
      rewrite ?IH by exact Hk; repeat case_bool_decide; congruence.
Qed.

Lemma get_app_last k v o k' :
  k ∉ Obj.keys o ->
  Obj.get (o ++ [(k, v)]) k' = if bool_decide (k = k') then Some v else Obj.get o k'.
Proof.
  induction o as [| [k0 v0] r IH]; simpl; intros Hk.
  - reflexivity.
  - apply not_elem_of_cons in Hk as [Hne Hk]. rewrite IH by exact Hk.
    repeat case_bool_decide; congruence.
Qed.

Lemma get_define k v o k' :
  Obj.get (Obj.define k v o) k' = if bool_decide (k = k') then Some v else Obj.get o k'.
Proof.
  unfold Obj.define. destruct (Obj.has o k) eqn:Hh.
  - apply get_replace, has_keys, Hh.
  - apply has_false_keys in Hh.
    destruct (array_index k); [apply get_insert_index | apply get_app_last]; exact Hh.
Qed.

Lemma wf_NoDup o : Obj.wf o -> NoDup (Obj.keys o).
Proof.
  unfold Obj.wf. induction (Obj.keys o) as [| k ks IH]; intros Hs; [constructor |].
  apply StronglySorted_cons in Hs as [Hall Hs]. constructor; [| apply IH, Hs].
  intros Hin. rewrite Forall_forall in Hall. destruct (Hall k Hin) as [Hne _].
  congruence.
Qed.

Lemma elem_of_get o k v : NoDup (Obj.keys o) -> (k, v) ∈ o <-> Obj.get o k = Some v.
Proof.
  induction o as [| [k0 v0] r IH]; simpl; intros Hnd.
  - split; [intros H; inversion H | discriminate].
  - apply NoDup_cons in Hnd as [Hk0 Hnd]. rewrite elem_of_cons, IH by exact Hnd.
    case_bool_decide as Hk.
    + subst k0. split.
      * intros [[= ->] | Hg]; [reflexivity |].
        exfalso. apply Hk0. apply has_keys. unfold Obj.has. rewrite Hg. reflexivity.
      * intros [= ->]. left. reflexivity.
    + split; [intros [[= -> ->] | Hg]; [congruence | exact Hg] | tauto].
Qed.

End ObjGetFacts.

(** ** The object collected by the change listener *)
Section CollectFacts.
Import Dom AutoSave.

Lemma collect_from_wf (inputs : list Field) (acc : Obj.t jsstring) :
  Obj.wf acc -> Obj.wf (fold_left collect_step inputs acc).
Proof.
  revert acc. induction inputs as [| f r IH]; intros acc Hwf; simpl; [exact Hwf |].
  apply IH. unfold collect_step. destruct (truthy (name f)); [apply wf_assign |]; exact Hwf.
Qed.

Lemma collect_wf (inputs : list Field) : Obj.wf (collect inputs).
Proof. apply collect_from_wf. constructor. Qed.

Lemma get_assign (k v : jsstring) (o : Obj.t jsstring) (k' : jsstring) :
  Obj.get o Obj.proto_key = None ->
  Obj.get (Obj.assign k v o) k'
  = if bool_decide (k = k') && negb (bool_decide (k = Obj.proto_key)) then Some v
    else Obj.get o k'.
Proof.
  intros Hp. unfold Obj.assign, Obj.has.
  destruct (decide (k = Obj.proto_key)) as [-> | Hne].
  - rewrite Hp. rewrite !bool_decide_eq_true_2 by reflexivity. simpl.
    rewrite andb_false_r. reflexivity.
  - rewrite !(bool_decide_eq_false_2 (k = Obj.proto_key)) by exact Hne. simpl.
    rewrite andb_true_r. apply get_define.
Qed.

Lemma collect_from_get (inputs : list Field) :
  forall (acc : Obj.t jsstring) (n : jsstring),
    Obj.get acc Obj.proto_key = None ->
    Obj.get (fold_left collect_step inputs acc) n
    = match (if truthy n && negb (bool_decide (n = Obj.proto_key))
             then last_value inputs n else None) with
      | Some v => Some v
      | None => Obj.get acc n
      end.
Proof.
  induction inputs as [| f r IH]; intros acc n Hp; simpl.
  - destruct (truthy n && negb (bool_decide (n = Obj.proto_key))); reflexivity.
  - assert (Hstep : forall k', Obj.get (collect_step acc f) k'
              = if truthy (name f) && bool_decide (name f = k')
                   && negb (bool_decide (name f = Obj.proto_key))
                then Some (value f) else Obj.get acc k').
    { intros k'. unfold collect_step. destruct (truthy (name f)); [| reflexivity].
      rewrite get_assign by exact Hp. reflexivity. }
    rewrite IH.
    + rewrite Hstep.
      destruct (truthy n) eqn:Hn; simpl.
      * destruct (decide (n = Obj.proto_key)) as [-> | Hne].
        -- rewrite (bool_decide_eq_true_2 (Obj.proto_key = Obj.proto_key)) by reflexivity.
           simpl. destruct (bool_decide (name f = Obj.proto_key));
             rewrite ?andb_false_r; reflexivity.
        -- rewrite (bool_decide_eq_false_2 (n = Obj.proto_key)) by exact Hne. simpl.
           destruct (last_value r n); [reflexivity |].
           destruct (decide (name f = n)) as [Hf | Hf].
           ++ rewrite (bool_decide_eq_true_2 _ Hf). subst n.
              rewrite Hn, (bool_decide_eq_false_2 _ Hne). reflexivity.
           ++ rewrite (bool_decide_eq_false_2 _ Hf), andb_false_r. reflexivity.
      * destruct n; [| discriminate].
        destruct (decide (name f = [])) as [Hf | Hf].
        -- rewrite Hf. reflexivity.
        -- rewrite (bool_decide_eq_false_2 _ Hf), andb_false_r. reflexivity.
    + rewrite Hstep.
      destruct (bool_decide (name f = Obj.proto_key)) eqn:Hb.
      * rewrite andb_false_r. exact Hp.
      * rewrite andb_false_r. exact Hp.
Qed.

(** Reading the collected object: the value of the last input with that
    name, for every name but the empty one and [Obj.proto_key]. *)
Lemma collect_get (inputs : list Field) (n : jsstring) :
  Obj.get (collect inputs) n
  = if truthy n && negb (bool_decide (n = Obj.proto_key))
    then last_value inputs n else None.
Proof.
  unfold collect. rewrite collect_from_get by reflexivity.
  destruct (truthy n && negb (bool_decide (n = Obj.proto_key)));
    [destruct (last_value inputs n) |]; reflexivity.
Qed.

Lemma last_value_elem (inputs : list Field) (n v : jsstring) :
  last_value inputs n = Some v ->
  exists f, f ∈ inputs /\ name f = n /\ value f = v.
Proof.
  induction inputs as [| f r IH]; simpl; [discriminate |].
  destruct (last_value r n) as [w |].
  - intros [= ->]. destruct (IH eq_refl) as (g & Hg & Hn & Hv).
    exists g. split; [right; exact Hg | tauto].
  - case_bool_decide; [| discriminate]. intros [= <-].
    exists f. split; [left | tauto].
Qed.

Lemma last_value_unique (inputs : list Field) (f : Field) :
  NoDup (map name (filter (fun f => truthy (name f) = true) inputs)) ->
  f ∈ inputs -> truthy (name f) = true ->
  last_value inputs (name f) = Some (value f).
Proof.
  induction inputs as [| g r IH]; intros Hnd Hin Ht; [inversion Hin |].
  simpl. rewrite filter_cons in Hnd.
  apply elem_of_cons in Hin as [<- | Hin].
  - destruct (decide (truthy (name f) = true)) as [_ | Hc]; [| contradiction].
    simpl in Hnd. apply NoDup_cons in Hnd as [Hnot _].
    destruct (last_value r (name f)) as [w |] eqn:Hl.
    + exfalso. apply Hnot. apply last_value_elem in Hl as (g & Hg & Hn & _).
      rewrite <- Hn. apply (list_elem_of_fmap_2 name).
      apply list_elem_of_filter. split; [congruence | exact Hg].
    + rewrite bool_decide_eq_true_2 by reflexivity. reflexivity.
  - assert (Hnd' : NoDup (map name (filter (fun f => truthy (name f) = true) r))).
    { destruct (decide (truthy (name g) = true)); [| exact Hnd].
      simpl in Hnd. apply NoDup_cons in Hnd as [_ Hnd]. exact Hnd. }
    rewrite (IH Hnd' Hin Ht). reflexivity.
Qed.

(** With pairwise distinct names, none of them [Obj.proto_key], the
    collected object has exactly one entry per named input. *)
Lemma collect_exact (inputs : list Field) :
  NoDup (map name (filter (fun f => truthy (name f) = true) inputs)) ->
  Obj.proto_key ∉ map name inputs ->
  snapshot_exact (collect inputs) inputs.
Proof.
  intros Hnd Hproto. unfold snapshot_exact.
  pose proof (wf_NoDup _ (collect_wf inputs)) as Hk.
  apply NoDup_Permutation.
  - apply (NoDup_fmap_1 fst). exact Hk.
  - apply (NoDup_fmap_1 fst). unfold named_entries.
    change (NoDup (map fst (map (fun f => (name f, value f))
              (filter (fun f => truthy (name f) = true) inputs)))).
    rewrite map_map. exact Hnd.
  - intros [k v]. rewrite elem_of_get by exact Hk. rewrite collect_get.
    unfold named_entries. split.
    + destruct (truthy k && negb (bool_decide (k = Obj.proto_key))) eqn:Hc;
        [| discriminate].
      apply andb_true_iff in Hc as [Ht _]. intros Hl.
      apply last_value_elem in Hl as (f & Hf & Hn & Hv).
      apply (list_elem_of_fmap_2' _ _ f); [| congruence].
      apply list_elem_of_filter. split; [congruence | exact Hf].
    + intros Hin. apply list_elem_of_fmap in Hin as (f & [= -> ->] & Hf).
      apply list_elem_of_filter in Hf as [Ht Hf]. rewrite Ht. simpl.
      rewrite bool_decide_eq_false_2.
      * simpl. apply last_value_unique; assumption.
      * intros Heq. apply Hproto. rewrite <- Heq. apply (list_elem_of_fmap_2 name), Hf.
Qed.

End CollectFacts.

(** ** The restore step only fills empty fields *)
Section RestoreFacts.
Import Dom AutoSave.
Context {host : Host}.

Lemma field_rel_refl f : field_rel f f.
Proof. left. reflexivity. Qed.

Lemma field_rel_trans f1 f2 f3 : field_rel f1 f2 -> field_rel f2 f3 -> field_rel f1 f3.
Proof.
  intros [-> | (He & Ht & Ha)] [-> | (He' & Ht' & Ha')];
    [left; reflexivity | right; tauto | right; tauto |].
  right. repeat split; congruence.
Qed.

Lemma form_rel_refl fm : form_rel fm fm.
Proof.
  split; [reflexivity |]. induction (fields fm); constructor; auto using field_rel_refl.
Qed.

Lemma Forall2_trans_rel {A} (R : A -> A -> Prop) :
  (forall x y z, R x y -> R y z -> R x z) ->
  forall l1 l2 l3, Forall2 R l1 l2 -> Forall2 R l2 l3 -> Forall2 R l1 l3.
Proof.
  intros HR l1 l2 l3 H12. revert l3.
  induction H12; intros l3 H23; inversion H23; subst; constructor; eauto.
Qed.

Lemma form_rel_trans f1 f2 f3 : form_rel f1 f2 -> form_rel f2 f3 -> form_rel f1 f3.
Proof.
  intros [Ha H12] [Ha' H23]. split; [congruence |].
  eapply Forall2_trans_rel; eauto using field_rel_trans.
Qed.

Lemma restores_refl p : restores p p.
Proof.
  split; [| reflexivity]. induction (forms p); constructor; auto using form_rel_refl.
Qed.

Lemma restores_trans p1 p2 p3 : restores p1 p2 -> restores p2 p3 -> restores p1 p3.
Proof.
  intros [H12 Hs] [H23 Hs']. split; [| congruence].
  eapply Forall2_trans_rel; eauto using form_rel_trans.
Qed.

Lemma Forall2_insert_rel {A} (R : A -> A -> Prop) (l : list A) (i : nat) (x y : A) :
  (forall z, R z z) -> l !! i = Some x -> R x y -> Forall2 R l (<[i := y]> l).
Proof.
  intros Hrefl. revert i. induction l as [| a l IH]; intros [| i] Hl Hxy; simpl in *;
    try discriminate.
  - injection Hl as ->. constructor; [exact Hxy |].
    clear IH. induction l; constructor; auto.
  - constructor; [apply Hrefl | apply IH; assumption].
Qed.

Lemma set_field_restores p i j fm f f' :
  forms p !! i = Some fm -> fields fm !! j = Some f -> field_rel f f' ->
  restores p (set_field i j f' p).
Proof.
  intros Hfm Hf Hrel. unfold set_field. rewrite Hfm. split; [| reflexivity]. simpl.
  eapply Forall2_insert_rel; eauto using form_rel_refl.
  split; [reflexivity |]. simpl.
  eapply Forall2_insert_rel; eauto using field_rel_refl.
Qed.

Lemma set_field_listeners p i j f : listeners (set_field i j f p) = listeners p.
Proof. unfold set_field. destruct (forms p !! i); reflexivity. Qed.

Lemma set_field_other p i j f k :
  k <> i -> forms (set_field i j f p) !! k = forms p !! k.
Proof.
  intros Hne. unfold set_field. destruct (forms p !! i); [| reflexivity]. simpl.
  apply list_lookup_insert_ne. congruence.
Qed.

(** One entry of the draft. *)
Lemma restore_entry_spec i entry p :
  restores p (restore_entry i entry p).2
  /\ listeners (restore_entry i entry p).2 = listeners p
  /\ (forall k, k <> i -> forms (restore_entry i entry p).2 !! k = forms p !! k)
  /\ (is_throw (restore_entry i entry p).1 = true -> (restore_entry i entry p).2 = p).
Proof.
  unfold restore_entry.
  destruct (forms p !! i) as [fm |] eqn:Hfm; [| simpl; auto using restores_refl].
  destruct (querySelector_name fm entry.1) as [[j |] | e]; try (simpl; auto using restores_refl).
  destruct (fields fm !! j) as [input |] eqn:Hin; [| simpl; auto using restores_refl].
  destruct (truthy (value input)) eqn:Hv; simpl; [auto using restores_refl |].
  destruct (value_setter input entry.2) as [s | e]; simpl; [| auto using restores_refl].
  split; [| split; [| split]].
  - eapply set_field_restores; eauto. right.
    destruct (value input); [auto | discriminate].
  - apply set_field_listeners.
  - intros k Hk. apply set_field_other, Hk.
  - discriminate.
Qed.

Lemma forEach_entries_spec i entries : forall p,
  restores p (forEach (restore_entry i) entries p).2
  /\ listeners (forEach (restore_entry i) entries p).2 = listeners p
  /\ (forall k, k <> i ->
        forms (forEach (restore_entry i) entries p).2 !! k = forms p !! k).
Proof.
  induction entries as [| en r IH]; intros p; simpl; [auto using restores_refl |].
  pose proof (restore_entry_spec i en p) as (Hr & Hl & Ho & _).
  destruct (restore_entry i en p) as [[[] | e] p'] eqn:He; simpl in *.
  - destruct (IH p') as (Hr' & Hl' & Ho').
    split; [eauto using restores_trans | split; [congruence |]].
    intros k Hk. rewrite Ho', Ho by exact Hk. reflexivity.
  - auto.
Qed.

Lemma restore_spec i id p :
  restores p (restore i id p).2
  /\ listeners (restore i id p).2 = listeners p
  /\ (forall k, k <> i -> forms (restore i id p).2 !! k = forms p !! k).
Proof.
  unfold restore.
  destruct (Storage.getItem (storage_key id) (localStorage p)) as [s |];
    [| simpl; auto using restores_refl].
  destruct (truthy s); [| simpl; auto using restores_refl].
  destruct (JSON_parse s) as [data | e]; [| simpl; auto using restores_refl].
  destruct (Object_entries data) as [entries | e]; [| simpl; auto using restores_refl].
  apply forEach_entries_spec.
Qed.

End RestoreFacts.

(** ** initAutoSave, form by form *)
Section InitFacts.
Import Dom AutoSave.
Context {host : Host}.

Lemma attach_fields_listeners i id (js : list nat) : forall p,
  let q := fold_left (fun q j => addEventListener (OnField i j) Change (AutoSaveChange i id) q)
                     js p in
  forms q = forms p /\ localStorage q = localStorage p
  /\ listeners q = listeners p ++ map (fun j => (OnField i j, Change, AutoSaveChange i id)) js.
Proof.
  induction js as [| j js IH]; intros p; simpl.
  - rewrite app_nil_r. auto.
  - destruct (IH (addEventListener (OnField i j) Change (AutoSaveChange i id) p))
      as (Hf & Hs & Hl).
    simpl in *. rewrite Hf, Hs, Hl, <- app_assoc. auto.
Qed.

Lemma attach_spec i id n p :
  forms (attach i id n p) = forms p
  /\ localStorage (attach i id n p) = localStorage p
  /\ listeners (attach i id n p) = listeners p ++ new_listeners i id n.
Proof.
  unfold attach, new_listeners.
  destruct (attach_fields_listeners i id (seq 0 n) p) as (Hf & Hs & Hl).
  simpl in *. rewrite Hf, Hs, Hl, <- app_assoc. auto.
Qed.

Lemma new_listeners_on i id n k : k <> i -> filter (fun l => target_form l.1.1 = k)
                                                  (new_listeners i id n) = [].
Proof.
  intros Hk. unfold new_listeners. rewrite filter_app.
  assert (H1 : filter (fun l : Target * EventType * Handler => target_form l.1.1 = k)
                 (map (fun j => (OnField i j, Change, AutoSaveChange i id)) (seq 0 n)) = []).
  { induction (seq 0 n) as [| j js IH]; [reflexivity |]. simpl.
    rewrite filter_cons. simpl. destruct (decide (i = k)); [congruence | exact IH]. }
  rewrite H1. simpl. rewrite filter_cons. simpl.
  destruct (decide (i = k)); [congruence | reflexivity].
Qed.

Lemma restores_same_forms p q q' :
  restores p q -> forms q' = forms q -> localStorage q' = localStorage q -> restores p q'.
Proof. intros [Hf Hs] Hf' Hs'. split; [rewrite Hf' | rewrite Hs']; assumption. Qed.

(** One form: fields are only filled, other forms and their listeners are
    left alone, and nothing is registered when the restore step throws. *)
Lemma initAutoSave_form_spec i p :
  restores p (initAutoSave_form i p).2
  /\ (forall k, k <> i -> forms (initAutoSave_form i p).2 !! k = forms p !! k)
  /\ (forall k, k <> i -> listeners_on k (initAutoSave_form i p).2 = listeners_on k p)
  /\ (is_throw (initAutoSave_form i p).1 = true ->
      listeners (initAutoSave_form i p).2 = listeners p).
Proof.
  unfold initAutoSave_form.
  destruct (forms p !! i) as [fm |]; [| simpl; auto using restores_refl].
  pose proof (restore_spec i (formId fm) p) as (Hr & Hl & Ho).
  destruct (restore i (formId fm) p) as [[[] | e] p'] eqn:He; cbn [fst snd is_throw] in *.
  - destruct (attach_spec i (formId fm) (length (fields fm)) p') as (Hf & Hs & Hl').
    split; [eapply restores_same_forms; eauto |].
    split; [intros k Hk; rewrite Hf; auto |].
    split; [| discriminate].
    intros k Hk. unfold listeners_on. rewrite Hl', filter_app, new_listeners_on by exact Hk.
    rewrite app_nil_r, Hl. reflexivity.
  - split; [exact Hr |]. split; [exact Ho |]. split; [| auto].
    intros k _. unfold listeners_on. rewrite Hl. reflexivity.
Qed.

Lemma forEach_app {A} (f : A -> Page -> Effect) (l1 l2 : list A) (p : Page) :
  forEach f (l1 ++ l2) p
  = match forEach f l1 p with
    | (Normal _, p') => forEach f l2 p'
    | (Throw e, p') => (Throw e, p')
    end.
Proof.
  revert p. induction l1 as [| a l1 IH]; intros p; simpl; [reflexivity |].
  destruct (f a p) as [[[] | e] p']; [apply IH | reflexivity].
Qed.

Lemma forEach_forms_restores (js : list nat) : forall p,
  restores p (forEach initAutoSave_form js p).2.
Proof.
  induction js as [| j js IH]; intros p; simpl; [apply restores_refl |].
  pose proof (initAutoSave_form_spec j p) as (Hr & _).
  destruct (initAutoSave_form j p) as [[[] | e] p']; simpl in *;
    [eauto using restores_trans | exact Hr].
Qed.

Lemma forEach_forms_other (i : nat) (js : list nat) : forall p,
  i ∉ js ->
  forms (forEach initAutoSave_form js p).2 !! i = forms p !! i
  /\ listeners_on i (forEach initAutoSave_form js p).2 = listeners_on i p
  /\ localStorage (forEach initAutoSave_form js p).2 = localStorage p.
Proof.
  induction js as [| j js IH]; intros p Hi; simpl; [auto |].
  apply not_elem_of_cons in Hi as [Hne Hi].
  pose proof (initAutoSave_form_spec j p) as ([_ Hs] & Ho & Hl & _).
  destruct (initAutoSave_form j p) as [[[] | e] p']; simpl in *.
  - destruct (IH p' Hi) as (H1 & H2 & H3).
    rewrite H1, H2, H3, Ho, Hl by exact Hne. auto.
  - rewrite Ho, Hl by exact Hne. auto.
Qed.

Lemma seq_split_at (i n : nat) : i < n -> seq 0 n = seq 0 i ++ i :: seq (S i) (n - S i).
Proof.
  intros Hlt. replace n with (i + S (n - S i)) at 1 by lia.
  rewrite seq_app. reflexivity.
Qed.

End InitFacts.

(** ** What initAutoSave registers *)
Section TrackedFacts.
Import Dom AutoSave.
Context {host : Host}.

Lemma handlers_for_listeners_on (t : Target) (ev : EventType) (p : Page) :
  handlers_for t ev p
  = map snd (filter (fun l => l.1 = (t, ev)) (listeners_on (target_form t) p)).
Proof.
  unfold handlers_for, listeners_on. f_equal.
  induction (listeners p) as [| l ls IH]; [reflexivity |].
  rewrite !filter_cons.
  destruct (decide (l.1 = (t, ev))) as [Heq | Hne].
  - destruct (decide (target_form l.1.1 = target_form t)) as [_ | Hn].
    + rewrite filter_cons. destruct (decide (l.1 = (t, ev))); [| contradiction].
      f_equal. exact IH.
    + exfalso. apply Hn. rewrite Heq. reflexivity.
  - destruct (decide (target_form l.1.1 = target_form t)); [| exact IH].
    rewrite filter_cons. destruct (decide (l.1 = (t, ev))); [contradiction | exact IH].
Qed.

Lemma new_listeners_all_on (i : nat) (id : jsstring) (n : nat) :
  filter (fun l : Target * EventType * Handler => target_form l.1.1 = i)
         (new_listeners i id n) = new_listeners i id n.
Proof.
  unfold new_listeners. rewrite filter_app.
  assert (H1 : forall js,
             filter (fun l : Target * EventType * Handler => target_form l.1.1 = i)
               (map (fun j => (OnField i j, Change, AutoSaveChange i id)) js)
             = map (fun j => (OnField i j, Change, AutoSaveChange i id)) js).
  { induction js as [| j js IH]; [reflexivity |]. simpl. rewrite filter_cons. simpl.
    destruct (decide (i = i)); [| congruence]. f_equal. exact IH. }
  rewrite H1. f_equal. rewrite filter_cons. simpl.
  destruct (decide (i = i)); [reflexivity | congruence].
Qed.

Lemma change_handlers_of_new (i j : nat) (id : jsstring) (js : list nat) :
  NoDup js -> j ∈ js ->
  map snd (filter (fun l : Target * EventType * Handler => l.1 = (OnField i j, Change))
             (map (fun j' => (OnField i j', Change, AutoSaveChange i id)) js))
  = [AutoSaveChange i id].
Proof.
  induction js as [| a js IH]; intros Hnd Hin; [inversion Hin |].
  apply NoDup_cons in Hnd as [Ha Hnd]. simpl. rewrite filter_cons. simpl.
  assert (Hnone : forall ks, j ∉ ks ->
            filter (fun l : Target * EventType * Handler => l.1 = (OnField i j, Change))
              (map (fun j' => (OnField i j', Change, AutoSaveChange i id)) ks) = []).
  { induction ks as [| k ks IHk]; intros Hk; [reflexivity |].
    apply not_elem_of_cons in Hk as [Hne Hk]. simpl. rewrite filter_cons. simpl.
    destruct (decide ((OnField i k, Change) = (OnField i j, Change))) as [Heq | _];
      [congruence | apply IHk, Hk]. }
  apply elem_of_cons in Hin as [-> | Hin].
  - destruct (decide ((OnField i a, Change) = (OnField i a, Change))); [| congruence].
    simpl. rewrite (Hnone js Ha). reflexivity.
  - destruct (decide ((OnField i a, Change) = (OnField i j, Change))) as [Heq | _].
    + exfalso. apply Ha. injection Heq as ->. exact Hin.
    + apply IH; assumption.
Qed.

Lemma handlers_of_new_listeners (i : nat) (id : jsstring) (n : nat) :
  map snd (filter (fun l : Target * EventType * Handler => l.1 = (OnForm i, Submit))
             (new_listeners i id n)) = [AutoSaveSubmit id]
  /\ forall j, j < n ->
       map snd (filter (fun l : Target * EventType * Handler => l.1 = (OnField i j, Change))
                  (new_listeners i id n)) = [AutoSaveChange i id].
Proof.
  unfold new_listeners. split.
  - rewrite filter_app.
    assert (H1 : forall js,
               filter (fun l : Target * EventType * Handler => l.1 = (OnForm i, Submit))
                 (map (fun j => (OnField i j, Change, AutoSaveChange i id)) js) = []).
    { induction js as [| j js IH]; [reflexivity |]. simpl. rewrite filter_cons. simpl.
      destruct (decide ((OnField i j, Change) = (OnForm i, Submit))); [congruence | exact IH]. }
    rewrite H1. simpl. rewrite filter_cons. simpl.
    destruct (decide ((OnForm i, Submit) = (OnForm i, Submit))); [reflexivity | congruence].
  - intros j Hj. rewrite filter_app, map_app.
    rewrite change_handlers_of_new.
    + rewrite filter_cons. simpl.
      destruct (decide ((OnForm i, Submit) = (OnField i j, Change))); [congruence | reflexivity].
    + apply NoDup_ListNoDup, seq_NoDup.
    + apply list_elem_of_In, in_seq. lia.
Qed.

Lemma restores_fields_length (p p' : Page) (i : nat) (fm : Form) :
  restores p p' -> forms p !! i = Some fm ->
  length (inputs_of i p') = length (fields fm).
Proof.
  intros [Hf _] Hfm.
  destruct (Forall2_lookup_l _ _ _ _ _ Hf Hfm) as (fm' & Hfm' & _ & Hfields).
  unfold inputs_of. rewrite Hfm'. symmetry. eapply Forall2_length, Hfields.
Qed.

(** On a page without listeners, a run of initAutoSave that returns
    normally leaves every form tracked under its identifier. *)
Lemma initAutoSave_tracks (p : Page) (i : nat) (fm : Form) :
  listeners p = [] ->
  is_throw (initAutoSave p).1 = false ->
  forms p !! i = Some fm ->
  tracked (initAutoSave p).2 i (formId fm).
Proof.
  intros Hnil Hnormal Hfm.
  assert (Hlen : length (inputs_of i (initAutoSave p).2) = length (fields fm)).
  { eapply restores_fields_length; [apply forEach_forms_restores | exact Hfm]. }
  assert (Hon : listeners_on i (initAutoSave p).2
                = new_listeners i (formId fm) (length (fields fm))).
  { unfold initAutoSave in *.
    assert (Hi : i < length (forms p)) by (eapply lookup_lt_Some; eauto).
    rewrite (seq_split_at i _ Hi), forEach_app in *.
    assert (Hnot : i ∉ seq 0 i).
    { intros Hin. apply list_elem_of_In, in_seq in Hin. lia. }
    destruct (forEach_forms_other i (seq 0 i) p Hnot) as (H1 & H2 & H3).
    destruct (forEach initAutoSave_form (seq 0 i) p) as [[[] | e] p1];
      cbn [fst snd] in H1, H2, H3; [| discriminate Hnormal].
    cbn [forEach] in *.
    assert (Hform : exists p1', initAutoSave_form i p1
                      = (Normal tt, attach i (formId fm) (length (fields fm)) p1')
                      /\ listeners p1' = listeners p1).
    { unfold initAutoSave_form in *. rewrite H1, Hfm in *.
      pose proof (restore_spec i (formId fm) p1) as (_ & Hl & _).
      destruct (restore i (formId fm) p1) as [[[] | e] p1'];
        [eauto | discriminate Hnormal]. }
    destruct Hform as (p1' & Hform & Hl1). rewrite Hform in *.
    assert (Hnot' : i ∉ seq (S i) (length (forms p) - S i)).
    { intros Hin. apply list_elem_of_In, in_seq in Hin. lia. }
    destruct (forEach_forms_other i _ (attach i (formId fm) (length (fields fm)) p1') Hnot')
      as (_ & H2' & _).
    rewrite H2'. unfold listeners_on in *.
    destruct (attach_spec i (formId fm) (length (fields fm)) p1') as (_ & _ & Hl').
    rewrite Hl', filter_app, Hl1, H2, Hnil, new_listeners_all_on. reflexivity. }
  destruct (handlers_of_new_listeners i (formId fm) (length (fields fm))) as [Hs Hc].
  split.
  - rewrite handlers_for_listeners_on. cbn [target_form]. rewrite Hon. exact Hs.
  - intros j Hj. rewrite handlers_for_listeners_on. cbn [target_form]. rewrite Hon.
    apply Hc. lia.
Qed.

End TrackedFacts.

(** ** Malformed drafts and non-empty fields *)
Section RestoreClaims.
Import Dom AutoSave.
Context {host : Host}.

Lemma JSON_parse_throws (s : jsstring) :
  is_throw (JSON_parse s) = true -> JSON_parse s = Throw SyntaxError.
Proof.
  unfold JSON_parse. destruct (parse_value (S (length s)) s) as [v rest | |];
    [destruct (skip_ws rest) |..]; simpl; congruence.
Qed.

Lemma restore_malformed (p : Page) (i : nat) (id s : jsstring) :
  Storage.getItem (storage_key id) (localStorage p) = Some s ->
  truthy s = true -> is_throw (JSON_parse s) = true ->
  restore i id p = (Throw SyntaxError, p).
Proof.
  intros Hg Ht Hp. unfold restore. rewrite Hg, Ht, (JSON_parse_throws s Hp). reflexivity.
Qed.

(** A stored string that is absent or empty is skipped. *)
Lemma restore_absent (p : Page) (i : nat) (id : jsstring) :
  Storage.getItem (storage_key id) (localStorage p) = None
  \/ Storage.getItem (storage_key id) (localStorage p) = Some [] ->
  restore i id p = (Normal tt, p).
Proof. intros [Hg | Hg]; unfold restore; rewrite Hg; reflexivity. Qed.

(** A stored [null] parses, and Object.keys then throws a TypeError. *)
Lemma restore_null (p : Page) (i : nat) (id : jsstring) :
  Storage.getItem (storage_key id) (localStorage p) = Some (str "null") ->
  restore i id p = (Throw TypeError, p).
Proof. intros Hg. unfold restore. rewrite Hg. reflexivity. Qed.

(** C1 (as amended): a non-empty stored draft that JSON.parse rejects is
    not treated as absent.  No value is applied to the form, but the
    SyntaxError leaves the restore step and initAutoSave as an exception,
    and the form gets none of the listeners of initAutoSave. *)
Theorem malformed_draft_throws (p : Page) (i : nat) (fm : Form) (s : jsstring) :
  forms p !! i = Some fm ->
  Storage.getItem (storage_key (formId fm)) (localStorage p) = Some s ->
  truthy s = true ->
  is_throw (JSON_parse s) = true ->
  restore i (formId fm) p = (Throw SyntaxError, p)
  /\ is_throw (initAutoSave p).1 = true
  /\ forms (initAutoSave p).2 !! i = Some fm
  /\ listeners_on i (initAutoSave p).2 = listeners_on i p.
Proof.
  intros Hfm Hg Ht Hp. split; [apply (restore_malformed p i (formId fm) s); assumption |].
  unfold initAutoSave.
  assert (Hi : i < length (forms p)) by (eapply lookup_lt_Some; eauto).
  rewrite (seq_split_at i _ Hi), forEach_app.
  assert (Hnot : i ∉ seq 0 i).
  { intros Hin. apply list_elem_of_In, in_seq in Hin. lia. }
  destruct (forEach_forms_other i (seq 0 i) p Hnot) as (H1 & H2 & H3).
  destruct (forEach initAutoSave_form (seq 0 i) p) as [[[] | e] p1];
    cbn [fst snd] in H1, H2, H3.
  - assert (Hthrow : initAutoSave_form i p1 = (Throw SyntaxError, p1)).
    { unfold initAutoSave_form. rewrite H1, Hfm.
      rewrite (restore_malformed p1 i (formId fm) s) by (rewrite ?H3; assumption).
      reflexivity. }
    cbn [forEach]. rewrite Hthrow. cbn [fst snd is_throw]. rewrite H1, H2. auto.
  - cbn [fst snd is_throw]. rewrite H1, H2. auto.
Qed.

Lemma restores_field_at (p p' : Page) (i j : nat) (f : Field) :
  restores p p' -> field_at p i j = Some f ->
  exists f', field_at p' i j = Some f' /\ field_rel f f'.
Proof.
  intros [Hf _]. unfold field_at. destruct (forms p !! i) as [fm |] eqn:Hfm; [| discriminate].
  destruct (Forall2_lookup_l _ _ _ _ _ Hf Hfm) as (fm' & -> & _ & Hfields).
  intros Hj. destruct (Forall2_lookup_l _ _ _ _ _ Hfields Hj) as (f' & Hf' & Hrel).
  eauto.
Qed.

(** C4: a field that is not empty when the draft is restored keeps its
    value (and everything else it holds), through the restore step of any
    form and through the whole of initAutoSave; an entry of the draft
    changes a field only if that field is empty at that moment. *)
Theorem restore_only_fills_empty_fields (p : Page) (i j : nat) (f : Field) :
  field_at p i j = Some f ->
  (truthy (value f) = true ->
   field_at (initAutoSave p).2 i j = Some f
   /\ forall k id, field_at (restore k id p).2 i j = Some f)
  /\ (forall k entry f',
        field_at (restore_entry k entry p).2 i j = Some f' -> f' <> f -> value f = []).
Proof.
  intros Hf.
  assert (Hkeep : forall p', restores p p' -> truthy (value f) = true ->
                             field_at p' i j = Some f).
  { intros p' Hr Ht.
    destruct (restores_field_at _ _ i j f Hr Hf) as (f' & Hf' & [-> | (He & _)]);
      [exact Hf' |].
    rewrite He in Ht. discriminate. }
  split.
  - intros Ht. split.
    + apply Hkeep; [apply forEach_forms_restores | exact Ht].
    + intros k id. apply Hkeep; [apply restore_spec | exact Ht].
  - intros k entry f' Hf' Hne.
    pose proof (restore_entry_spec k entry p) as (Hr & _).
    destruct (restores_field_at _ _ i j f Hr Hf) as (f'' & Hf'' & [-> | (He & _)]);
      [congruence | exact He].
Qed.

End RestoreClaims.

(** The truncated draft of the scenario makes initAutoSave throw. *)
Lemma malformed_draft_throws_witness :
  AutoSave.restore (host := AutoSave.text_host) 0 (JS.str "profile-form")
    Scenario.truncated_page = (Throw SyntaxError, Scenario.truncated_page)
  /\ is_throw (AutoSave.initAutoSave (host := AutoSave.text_host) Scenario.truncated_page).1 = true.
Proof.
  destruct (malformed_draft_throws (host := AutoSave.text_host) Scenario.truncated_page 0
              Scenario.profile_form Scenario.truncated_draft) as (H1 & H2 & _);
    [reflexivity | reflexivity | reflexivity | reflexivity |].
  split; [exact H1 | exact H2].
Defined.

(** C1, as stated, fails: the draft is not well formed, and initAutoSave
    throws to its caller instead of skipping it. *)
Lemma malformed_draft_counterexample :
  Json.decode Scenario.truncated_draft = None
  /\ (AutoSave.initAutoSave (host := AutoSave.text_host) Scenario.truncated_page).1
     = Throw SyntaxError.
Proof. split; reflexivity. Qed.

(** A typed biography survives the restore step. *)
Lemma restore_only_fills_empty_fields_witness :
  AutoSave.field_at (AutoSave.initAutoSave (host := AutoSave.text_host) Scenario.typed_page).2 0 1
  = Some (Scenario.textarea (JS.str "bio") (JS.str "Engineer")).
Proof.
  apply (proj1 (restore_only_fills_empty_fields (host := AutoSave.text_host)
                  Scenario.typed_page 0 1 _ eq_refl));
    reflexivity.
Defined.

(** ** The change and submit listeners *)
Section ListenerClaims.
Import Dom AutoSave.
Context {host : Host}.

Lemma setItem_throws k v st :
  is_throw (Storage.setItem k v st) = true -> Storage.setItem k v st = Throw QuotaExceededError.
Proof. unfold Storage.setItem. destruct (_ <=? _); simpl; congruence. Qed.

Lemma getItem_setItem k v st st' :
  Storage.setItem k v st = Normal st' -> Storage.getItem k st' = Some v.
Proof.
  unfold Storage.setItem. destruct (_ <=? _); [| discriminate].
  intros [= <-]. unfold Storage.getItem. simpl. apply lookup_insert_eq.
Qed.

Lemma getItem_removeItem k st : Storage.getItem k (Storage.removeItem k st) = None.
Proof. unfold Storage.getItem, Storage.removeItem. simpl. apply lookup_delete_eq. Qed.

(** C2 (as amended): when the write to the store fails, the exception
    thrown by setItem leaves the change listener: the event reports one
    uncaught QuotaExceededError.  The store and the page are as before;
    the write is attempted once. *)
Theorem failed_write_is_uncaught (p : Page) (i j : nat) (id : jsstring) :
  tracked p i id ->
  j < length (inputs_of i p) ->
  is_throw (Storage.setItem (storage_key id) (JSON_stringify (collect (inputs_of i p)))
                            (localStorage p)) = true ->
  change_handler i id p = (Throw QuotaExceededError, p)
  /\ dispatchEvent (OnField i j) Change p = ([QuotaExceededError], p).
Proof.
  intros [_ Hch] Hj Hthrow.
  assert (Hh : change_handler i id p = (Throw QuotaExceededError, p)).
  { unfold change_handler. rewrite (setItem_throws _ _ _ Hthrow). reflexivity. }
  split; [exact Hh |].
  unfold dispatchEvent. rewrite (Hch j Hj). cbn [run_listeners run_handler].
  rewrite Hh. reflexivity.
Qed.

(** C5 (as amended): after a change event on a tracked form whose write
    succeeds, the store holds under the key of the form the encoding of
    the collected object, whatever was stored before; that text decodes to
    the same object.  The object has no repeated key and holds, for every
    name other than the empty name and [Obj.proto_key], the current value
    of the last input with that name.  When the named inputs have pairwise
    distinct names, none of them [Obj.proto_key], this is exactly one
    entry per named input. *)
Theorem change_stores_snapshot (p : Page) (i j : nat) (id : jsstring) (st' : Storage.t) :
  tracked p i id ->
  j < length (inputs_of i p) ->
  Storage.setItem (storage_key id) (JSON_stringify (collect (inputs_of i p)))
                  (localStorage p) = Normal st' ->
  let inputs := inputs_of i p in
  let r := dispatchEvent (OnField i j) Change p in
  r.1 = []
  /\ forms r.2 = forms p
  /\ Storage.getItem (storage_key id) (localStorage r.2) = Some (encode (collect inputs))
  /\ decode (encode (collect inputs)) = Some (collect inputs)
  /\ NoDup (Obj.keys (collect inputs))
  /\ (forall n, Obj.get (collect inputs) n
                = if truthy n && negb (bool_decide (n = Obj.proto_key))
                  then last_value inputs n else None)
  /\ (NoDup (map name (filter (fun f => truthy (name f) = true) inputs)) ->
      Obj.proto_key ∉ map name inputs ->
      snapshot_exact (collect inputs) inputs).
Proof.
  intros [_ Hch] Hj Hset. cbn zeta.
  unfold dispatchEvent. rewrite (Hch j Hj). cbn [run_listeners run_handler].
  unfold change_handler. rewrite Hset. cbn [fst snd set_storage forms localStorage].
  split; [reflexivity |]. split; [reflexivity |].
  split; [apply (getItem_setItem _ _ _ _ Hset) |].
  split; [apply decode_encode, collect_wf |].
  split; [apply wf_NoDup, collect_wf |].
  split; [apply collect_get | apply collect_exact].
Qed.

(** C6: after the submit event of a tracked form, the store holds nothing
    under the key of the form, and the restore step of any later page
    load that finds the store in this state applies nothing for that
    key. *)
Theorem submit_clears_draft (p : Page) (i : nat) (id : jsstring) :
  tracked p i id ->
  let r := dispatchEvent (OnForm i) Submit p in
  r.1 = []
  /\ Storage.getItem (storage_key id) (localStorage r.2) = None
  /\ (forall (q : Page) (k : nat),
        localStorage q = localStorage r.2 -> restore k id q = (Normal tt, q)).
Proof.
  intros [Hsub _]. cbn zeta.
  unfold dispatchEvent. rewrite Hsub. cbn [run_listeners run_handler submit_handler fst snd].
  cbn [set_storage localStorage].
  split; [reflexivity |]. split; [apply getItem_removeItem |].
  intros q k Hq. apply restore_absent. left. rewrite Hq. apply getItem_removeItem.
Qed.

End ListenerClaims.

(** With a store that accepts nothing, a change event on the tracked
    profile form reports an uncaught QuotaExceededError. *)
Lemma failed_write_is_uncaught_witness :
  AutoSave.dispatchEvent (Dom.OnField 0 1) Dom.Change Scenario.full_tracked
  = ([QuotaExceededError], Scenario.full_tracked).
Proof.
  apply (failed_write_is_uncaught Scenario.full_tracked 0 1 (JS.str "profile-form")).
  - split; [reflexivity |].
    intros [| [| j]] Hj; [reflexivity | reflexivity | vm_compute in Hj; lia].
  - vm_compute. lia.
  - reflexivity.
Defined.

(** C2, as stated, fails: the failed write surfaces as an uncaught
    exception of the change listener. *)
Lemma failed_write_counterexample :
  is_throw (AutoSave.change_handler 0 (JS.str "profile-form") Scenario.full_tracked).1 = true
  /\ (AutoSave.dispatchEvent (Dom.OnField 0 1) Dom.Change Scenario.full_tracked).1
     = [QuotaExceededError].
Proof. split; reflexivity. Qed.

(** After a change event on the tracked profile form the store holds the
    snapshot of both fields (the restored name, the typed biography), in
    place of the older draft. *)
Lemma change_stores_snapshot_witness :
  Storage.getItem Scenario.profile_key
    (Dom.localStorage
       (AutoSave.dispatchEvent (Dom.OnField 0 1) Dom.Change Scenario.typed_tracked).2)
  = Some (AutoSave.lit "{'name':'Alice','bio':'Engineer'}").
Proof.
  refine (proj1 (proj2 (proj2
    (change_stores_snapshot Scenario.typed_tracked 0 1 (JS.str "profile-form") _ _ _ eq_refl)))).
  - split; [reflexivity |].
    intros [| [| j]] Hj; [reflexivity | reflexivity | vm_compute in Hj; lia].
  - vm_compute. lia.
Defined.

(** C5, as stated, fails in two ways: with a radio group the record has one
    entry for two named inputs, holding the value of the last one; and when
    the write fails no record is stored at all. *)
Lemma change_snapshot_counterexample :
  (exists r,
      Storage.getItem (AutoSave.storage_key (JS.str "plan-form"))
        (Dom.localStorage
           (AutoSave.dispatchEvent (Dom.OnField 0 0) Dom.Change Scenario.plan_tracked).2)
      = Some (Json.encode r)
      /\ r = [(JS.str "plan", JS.str "pro")]
      /\ ~ AutoSave.snapshot_exact r (AutoSave.inputs_of 0 Scenario.plan_tracked))
  /\ Storage.getItem Scenario.profile_key
       (Dom.localStorage
          (AutoSave.dispatchEvent (Dom.OnField 0 1) Dom.Change Scenario.full_tracked).2)
     = None.
Proof.
  split; [| reflexivity].
  exists [(JS.str "plan", JS.str "pro")]. split; [reflexivity |]. split; [reflexivity |].
  intros Hperm. apply Permutation_length in Hperm. discriminate Hperm.
Qed.

(** Submitting the tracked profile form removes its draft. *)
Lemma submit_clears_draft_witness :
  Storage.getItem Scenario.profile_key
    (Dom.localStorage (AutoSave.dispatchEvent (Dom.OnForm 0) Dom.Submit Scenario.typed_tracked).2)
  = None.
Proof.
  refine (proj1 (proj2
    (submit_clears_draft (host := AutoSave.text_host) Scenario.typed_tracked 0
       (JS.str "profile-form") _))).
  split; [reflexivity |].
  intros [| [| j]] Hj; [reflexivity | reflexivity | vm_compute in Hj; lia].
Defined.

(** ** The page-load handler *)
Section PageLoad.
Import Dom AutoSave.

Lemma register_fold (sel : Field -> bool) ev h (l : list (nat * nat * Field)) :
  forall q : Page,
  let q' := fold_left (fun (q : Page) '(i, j, f) =>
              if sel f then addEventListener (OnField i j) ev h q else q) l q in
  forms q' = forms q /\ localStorage q' = localStorage q
  /\ exists extra : list (Target * EventType * Handler),
       listeners q' = listeners q ++ extra /\ Forall (fun x => x.1.2 = ev) extra.
Proof.
  induction l as [| [[i j] f] l IH]; intros q; cbn zeta; simpl.
  - split; [reflexivity |]. split; [reflexivity |]. exists []. rewrite app_nil_r. auto.
  - destruct (sel f).
    + destruct (IH (addEventListener (OnField i j) ev h q)) as (Hf & Hs & extra & Hl & Hall).
      cbn zeta in *. rewrite Hf, Hs, Hl. simpl.
      split; [reflexivity |]. split; [reflexivity |].
      exists ((OnField i j, ev, h) :: extra). rewrite <- app_assoc.
      split; [reflexivity |]. constructor; [reflexivity | exact Hall].
    + apply IH.
Qed.

Lemma register_where_spec sel ev h p :
  forms (register_where sel ev h p) = forms p
  /\ localStorage (register_where sel ev h p) = localStorage p
  /\ forall t ev', ev' <> ev ->
       handlers_for t ev' (register_where sel ev h p) = handlers_for t ev' p.
Proof.
  unfold register_where.
  destruct (register_fold sel ev h (all_fields p) p) as (Hf & Hs & extra & Hl & Hall).
  cbn zeta in *. split; [exact Hf |]. split; [exact Hs |].
  intros t ev' Hne. unfold handlers_for. rewrite Hl, filter_app.
  assert (He : filter (fun l : Target * EventType * Handler => l.1 = (t, ev')) extra = []).
  { clear Hl. induction Hall as [| x extra Hx _ IH]; [reflexivity |].
    rewrite filter_cons. destruct (decide (x.1 = (t, ev'))) as [Heq | _]; [| exact IH].
    exfalso. apply Hne. rewrite <- Hx, Heq. reflexivity. }
  rewrite He, app_nil_r. reflexivity.
Qed.

Lemma decorates_refl p : decorates p p.
Proof. repeat split. Qed.

Lemma decorates_trans p1 p2 p3 : decorates p1 p2 -> decorates p2 p3 -> decorates p1 p3.
Proof.
  intros (Hf & Hs & Hh) (Hf' & Hs' & Hh'). split; [congruence |]. split; [congruence |].
  intros t ev Hev. rewrite Hh', Hh by exact Hev. reflexivity.
Qed.

Lemma register_where_decorates sel ev h p :
  ev <> Change -> ev <> Submit -> decorates p (register_where sel ev h p).
Proof.
  intros Hc Hs. destruct (register_where_spec sel ev h p) as (Hf & Hst & Hh).
  split; [exact Hf |]. split; [exact Hst |].
  intros t ev' [-> | ->]; apply Hh; congruence.
Qed.

Lemma initFormEnhancements_decorates p : decorates p (initFormEnhancements p).
Proof.
  unfold initFormEnhancements. cbn zeta.
  eapply decorates_trans; [| apply register_where_decorates; discriminate].
  eapply decorates_trans; apply register_where_decorates; discriminate.
Qed.

Lemma initSearchEnhancements_decorates p : decorates p (initSearchEnhancements p).
Proof. apply register_where_decorates; discriminate. Qed.

Lemma initTooltips_decorates p : decorates p (initTooltips p).
Proof. apply register_where_decorates; discriminate. Qed.

(** C3 (evaluation of the code): the listener of DOMContentLoaded starts
    six features and initAutoSave is not among them.  After page load no
    field has been restored, the store has not changed, and no listener
    of a change or submit event has been registered. *)
Theorem page_load_does_not_start_autosave (p : Page) :
  forms (DOMContentLoaded_handler p) = forms p
  /\ localStorage (DOMContentLoaded_handler p) = localStorage p
  /\ forall t,
       handlers_for t Change (DOMContentLoaded_handler p) = handlers_for t Change p
       /\ handlers_for t Submit (DOMContentLoaded_handler p) = handlers_for t Submit p.
Proof.
  assert (Hd : decorates p (DOMContentLoaded_handler p)).
  { unfold DOMContentLoaded_handler, initAnimations, initTableEnhancements,
      initDashboardStats. cbn zeta.
    eapply decorates_trans; [| apply initTooltips_decorates].
    eapply decorates_trans; [| apply initSearchEnhancements_decorates].
    apply initFormEnhancements_decorates. }
  destruct Hd as (Hf & Hs & Hh). split; [exact Hf |]. split; [exact Hs |].
  intros t. split; apply Hh; auto.
Qed.

End PageLoad.

(** On the page of the scenario, with the draft of Alice in the store, the
    page-load handler leaves the name empty and registers nothing for change
    or submit, while a call of initAutoSave would have restored the name. *)
Lemma page_load_leaves_draft_unrestored :
  Dom.value <$> AutoSave.field_at (AutoSave.DOMContentLoaded_handler Scenario.alice_page) 0 0
  = Some []
  /\ Dom.listeners (AutoSave.DOMContentLoaded_handler Scenario.alice_page) = []
  /\ Dom.value <$> AutoSave.field_at
       (AutoSave.initAutoSave (host := AutoSave.text_host) Scenario.alice_page).2 0 0
     = Some (JS.str "Alice").
Proof. repeat split; reflexivity. Qed.

(** ** Round trip of draft records *)
Section RoundTrip.
Import Dom AutoSave.

(** C7 (as amended): for every text the encoder produces from an object
    in own-property order, decoding gives back that object, and encoding
    the decoded object gives back the text. *)
Theorem encoded_record_round_trip (r : Obj.t jsstring) :
  Obj.wf r ->
  decode (encode r) = Some r
  /\ encode <$> decode (encode r) = Some (encode r).
Proof.
  intros Hwf. rewrite (decode_encode r Hwf). split; reflexivity.
Qed.

(** In particular for every record the change listener writes. *)
Corollary written_record_round_trip (inputs : list Field) :
  encode <$> decode (encode (collect inputs)) = Some (encode (collect inputs)).
Proof. rewrite (decode_encode _ (collect_wf inputs)). reflexivity. Qed.

End RoundTrip.

(** The record of the concrete scenario. *)
Lemma encoded_record_round_trip_witness :
  Json.encode <$> Json.decode (AutoSave.lit "{'name':'Alice','bio':''}")
  = Some (AutoSave.lit "{'name':'Alice','bio':''}").
Proof.
  exact (proj2 (encoded_record_round_trip
                  (AutoSave.collect [Scenario.text_input (JS.str "name") (JS.str "Alice");
                                     Scenario.textarea (JS.str "bio") []])
                  (collect_wf _))).
Defined.

(** C7, as stated, fails: a record written with white space is well formed
    (it decodes), and encoding what it decodes to gives a different text. *)
Lemma round_trip_counterexample :
  exists r,
    Json.decode Scenario.spaced_record = Some r
    /\ Json.encode r <> Scenario.spaced_record.
Proof.
  exists [(JS.str "a", JS.str "b")]. split; [reflexivity |].
  intros H. vm_compute in H. discriminate H.
Qed.

(** ** The currency symbol *)
Section CurrencyClaims.
Import Currency.

Lemma own_symbol_truthy (cur sym : jsstring) :
  Obj.get CURRENCY_SYMBOLS cur = Some sym -> truthy cur = true /\ truthy sym = true.
Proof.
  unfold CURRENCY_SYMBOLS. cbn [Obj.get].
  repeat (case_bool_decide; [subst cur; intros [= <-]; split; reflexivity |]).
  discriminate.
Qed.

Lemma lookup_own (cur sym : jsstring) :
  Obj.get CURRENCY_SYMBOLS cur = Some sym -> lookup cur = PString sym.
Proof. intros H. unfold lookup. rewrite H. reflexivity. Qed.

Lemma is_default_spec (s : jsstring) :
  is_default s = true <-> s = [] \/ s = DOLLAR \/ s = NAIRA.
Proof.
  unfold is_default. rewrite !orb_true_iff, !bool_decide_eq_true, negb_true_iff.
  destruct s; simpl; intuition congruence.
Qed.

(** C8: with a currency that has a symbol in the mapping, the symbol field
    receives that symbol when its trimmed value is empty, the dollar sign
    or the naira sign; with any other value the page is left as it is. *)
Theorem known_currency_overwrites_only_defaults
        (p : Page) (cur sym : jsstring) (f : SymbolField) :
  currencyField p = Some cur ->
  currencySymbolField p = Some f ->
  Obj.get CURRENCY_SYMBOLS cur = Some sym ->
  (trim (value f) = [] \/ trim (value f) = DOLLAR \/ trim (value f) = NAIRA ->
   symbol_value (updateCurrencySymbol p) = Some sym)
  /\ (trim (value f) <> [] -> trim (value f) <> DOLLAR -> trim (value f) <> NAIRA ->
      updateCurrencySymbol p = p).
Proof.
  intros Hc Hf Hown. destruct (own_symbol_truthy cur sym Hown) as [Hcur Hsym].
  unfold updateCurrencySymbol. rewrite Hc, Hf, (lookup_own cur sym Hown).
  cbn [to_boolean to_string]. rewrite Hcur, Hsym. cbn [andb].
  split.
  - intros Hd. apply is_default_spec in Hd. rewrite Hd. reflexivity.
  - intros H1 H2 H3. destruct (is_default (trim (value f))) eqn:Hd; [| reflexivity].
    apply is_default_spec in Hd. tauto.
Qed.

End CurrencyClaims.

(** Euro selected over a dollar placeholder surrounded by spaces. *)
Lemma known_currency_overwrites_only_defaults_witness :
  Currency.symbol_value
    (Currency.updateCurrencySymbol (Scenario.currency_page (JS.str "EUR") (JS.str " $ ")))
  = Some [8364%N].
Proof.
  apply (proj1 (known_currency_overwrites_only_defaults
                  (Scenario.currency_page (JS.str "EUR") (JS.str " $ "))
                  (JS.str "EUR") [8364%N] (Currency.mkSymbol (JS.str " $ ") [])
                  eq_refl eq_refl eq_refl)).
  right. left. reflexivity.
Defined.

Section CurrencyLookup.
Import Currency.

Lemma lookup_undefined (cur : jsstring) :
  lookup cur = PUndefined
  <-> Obj.get CURRENCY_SYMBOLS cur = None
      /\ Obj.get Object_prototype_functions cur = None
      /\ cur <> Obj.proto_key.
Proof.
  unfold lookup.
  destruct (Obj.get CURRENCY_SYMBOLS cur); [split; [discriminate | intros [? _]; discriminate] |].
  destruct (Obj.get Object_prototype_functions cur);
    [split; [discriminate | intros (_ & ? & _); discriminate] |].
  case_bool_decide; split; try discriminate; try tauto.
Qed.

(** The part of C9 the code does satisfy: an empty currency, and a
    currency that is neither a key of the mapping nor a property
    inherited from Object.prototype, leave the page as it is. *)
Lemma unmapped_currency_leaves_symbol (p : Page) (cur : jsstring) :
  currencyField p = Some cur ->
  cur = [] \/ lookup cur = PUndefined ->
  updateCurrencySymbol p = p.
Proof.
  intros Hc Hcur. unfold updateCurrencySymbol. rewrite Hc.
  destruct (currencySymbolField p); [| reflexivity].
  destruct Hcur as [-> | ->]; [reflexivity |].
  cbn [to_boolean]. rewrite andb_false_r. reflexivity.
Qed.

Lemma update_keeps_currency (p : Page) :
  currencyField (updateCurrencySymbol p) = currencyField p.
Proof.
  unfold updateCurrencySymbol.
  destruct (currencyField p) as [c |] eqn:Hc; [| exact Hc].
  destruct (currencySymbolField p); [| exact Hc].
  destruct (truthy c && to_boolean (lookup c)); [| exact Hc].
  destruct (is_default _); [reflexivity | exact Hc].
Qed.

Lemma update_sets_symbol (p : Page) (cur sym : jsstring) (f : SymbolField) :
  currencyField p = Some cur -> currencySymbolField p = Some f ->
  Obj.get CURRENCY_SYMBOLS cur = Some sym ->
  is_default (trim (value f)) = true ->
  symbol_value (updateCurrencySymbol p) = Some sym.
Proof.
  intros Hc Hf Hown Hd. destruct (own_symbol_truthy cur sym Hown) as [Hcur Hsym].
  unfold updateCurrencySymbol. rewrite Hc, Hf, (lookup_own cur sym Hown).
  cbn [to_boolean to_string]. rewrite Hcur, Hsym, Hd. reflexivity.
Qed.

(** Once the symbol of the selected currency is in the field, further
    runs of the listener keep it there. *)
Lemma update_keeps_symbol (p : Page) (cur sym : jsstring) :
  currencyField p = Some cur -> Obj.get CURRENCY_SYMBOLS cur = Some sym ->
  symbol_value p = Some sym -> symbol_value (updateCurrencySymbol p) = Some sym.
Proof.
  intros Hc Hown Hv. unfold updateCurrencySymbol. rewrite Hc.
  destruct (currencySymbolField p) as [f |] eqn:Hf; [| exact Hv].
  rewrite (lookup_own cur sym Hown).
  destruct (truthy cur && to_boolean (PString sym)); [| exact Hv].
  destruct (is_default _); [reflexivity | exact Hv].
Qed.

Lemma iter_update_keeps_symbol (n : nat) (p : Page) (cur sym : jsstring) :
  currencyField p = Some cur -> Obj.get CURRENCY_SYMBOLS cur = Some sym ->
  symbol_value p = Some sym ->
  symbol_value (Nat.iter n updateCurrencySymbol p) = Some sym
  /\ currencyField (Nat.iter n updateCurrencySymbol p) = Some cur.
Proof.
  intros Hc Hown Hv. induction n as [| n [IHv IHc]]; simpl; [auto |].
  split; [eapply update_keeps_symbol; eauto |].
  rewrite update_keeps_currency. exact IHc.
Qed.

(** C10: at page load the symbol field is touched only when a currency is
    set and the trimmed symbol is empty or the dollar sign, in which case
    updateCurrencySymbol runs.  A naira sign is therefore kept at page
    load, while the change event that follows replaces it by the symbol
    of the selected currency. *)
Theorem load_replaces_only_empty_or_dollar
        (p : Page) (cur : jsstring) (f : SymbolField) :
  currencyField p = Some cur ->
  currencySymbolField p = Some f ->
  (truthy cur = true -> trim (value f) = [] \/ trim (value f) = DOLLAR ->
   DOMContentLoaded_handler p = add_help (updateCurrencySymbol (add_listener p)))
  /\ (trim (value f) <> [] -> trim (value f) <> DOLLAR ->
      DOMContentLoaded_handler p = add_help (add_listener p))
  /\ (trim (value f) = NAIRA ->
      currencySymbolField (DOMContentLoaded_handler p) = Some f
      /\ forall sym, Obj.get CURRENCY_SYMBOLS cur = Some sym ->
           symbol_value (change_event (DOMContentLoaded_handler p)) = Some sym).
Proof.
  intros Hc Hf.
  assert (Htrig : load_trigger (add_listener p)
                  = truthy cur && (negb (truthy (trim (value f)))
                                   || bool_decide (trim (value f) = DOLLAR))).
  { unfold load_trigger, add_listener. cbn. rewrite Hc, Hf. reflexivity. }
  assert (Hskip : trim (value f) <> [] -> trim (value f) <> DOLLAR ->
                  DOMContentLoaded_handler p = add_help (add_listener p)).
  { intros H1 H2. unfold DOMContentLoaded_handler. rewrite Hc, Hf. cbn zeta.
    rewrite Htrig. rewrite (bool_decide_eq_false_2 _ H2).
    destruct (trim (value f)); [congruence |]. rewrite andb_false_r. reflexivity. }
  split; [| split; [exact Hskip |]].
  - intros Hcur Hd. unfold DOMContentLoaded_handler. rewrite Hc, Hf. cbn zeta.
    rewrite Htrig, Hcur. destruct Hd as [-> | ->]; reflexivity.
  - intros Hn. rewrite Hskip by (rewrite Hn; discriminate).
    assert (Hfield : currencySymbolField (add_help (add_listener p)) = Some f).
    { unfold add_help, add_listener. cbn. destruct (wrapperHelp p) as [[| k] |]; exact Hf. }
    split; [exact Hfield |].
    intros sym Hown. unfold change_event.
    assert (Hcount : changeListeners (add_help (add_listener p)) = S (changeListeners p)).
    { unfold add_help, add_listener. cbn. destruct (wrapperHelp p) as [[| k] |]; reflexivity. }
    assert (Hcur' : currencyField (add_help (add_listener p)) = Some cur).
    { unfold add_help, add_listener. cbn. destruct (wrapperHelp p) as [[| k] |]; exact Hc. }
    rewrite Hcount, Nat.iter_succ_r.
    eapply iter_update_keeps_symbol; eauto.
    + rewrite update_keeps_currency. exact Hcur'.
    + eapply (proj1 (known_currency_overwrites_only_defaults _ cur sym f Hcur' Hfield Hown)).
      right. right. exact Hn.
Qed.

End CurrencyLookup.

(** C9 (evaluation of the code): the name of a built-in method has no
    entry in the mapping, yet selecting it overwrites the empty symbol field
    with the text of that method. *)
Theorem inherited_name_overwrites_symbol :
  Obj.get Currency.CURRENCY_SYMBOLS (JS.str "toString") = None
  /\ Currency.updateCurrencySymbol (Scenario.currency_page (JS.str "toString") [])
     <> Scenario.currency_page (JS.str "toString") []
  /\ Currency.symbol_value
       (Currency.updateCurrencySymbol (Scenario.currency_page (JS.str "toString") []))
     = Some (JS.str "function toString() { [native code] }").
Proof. split; [reflexivity |]. split; [discriminate | reflexivity]. Qed.

(** The euro selected, the field already holding the naira sign: the sign
    is kept at page load, and replaced by the change event. *)
Lemma load_replaces_only_empty_or_dollar_witness :
  Currency.currencySymbolField
    (Currency.DOMContentLoaded_handler (Scenario.currency_page (JS.str "EUR") [8358%N]))
  = Some (Currency.mkSymbol [8358%N] [])
  /\ Currency.symbol_value
       (Currency.change_event
          (Currency.DOMContentLoaded_handler (Scenario.currency_page (JS.str "EUR") [8358%N])))
     = Some [8364%N].
Proof.
  destruct (load_replaces_only_empty_or_dollar
              (Scenario.currency_page (JS.str "EUR") [8358%N]) (JS.str "EUR")
              (Currency.mkSymbol [8358%N] []) eq_refl eq_refl) as (_ & _ & H).
  destruct (H eq_refl) as [H1 H2]. split; [exact H1 | exact (H2 _ eq_refl)].
Defined.

(** * Further properties of the scripts *)

(** ** initAutoSave: what it keeps and what it abandons *)
Section InitFrame.
Import Dom AutoSave.
Context {host : Host}.



(** When the draft of one form is rejected by JSON.parse, the exception
    ends the loop over the forms: every later form is left as it was, its
    own draft is not restored and it gets no listener. *)
Theorem malformed_draft_abandons_later_forms
        (p : Page) (i k : nat) (fm : Form) (s : jsstring) :
  forms p !! i = Some fm ->
  Storage.getItem (storage_key (formId fm)) (localStorage p) = Some s ->
  truthy s = true ->
  is_throw (JSON_parse s) = true ->
  i < k ->
  forms (initAutoSave p).2 !! k = forms p !! k
  /\ listeners_on k (initAutoSave p).2 = listeners_on k p.
Proof.
  intros Hfm Hg Ht Hp Hik. unfold initAutoSave.
  assert (Hi : i < length (forms p)) by (eapply lookup_lt_Some; eauto).
  rewrite (seq_split_at i _ Hi), forEach_app.
  assert (Hk : k ∉ seq 0 i).
  { intros Hin. apply list_elem_of_In, in_seq in Hin. lia. }
  assert (Hnot : i ∉ seq 0 i).
  { intros Hin. apply list_elem_of_In, in_seq in Hin. lia. }
  destruct (forEach_forms_other k (seq 0 i) p Hk) as (K1 & K2 & _).
  destruct (forEach_forms_other i (seq 0 i) p Hnot) as (H1 & _ & H3).
  destruct (forEach initAutoSave_form (seq 0 i) p) as [[[] | e] p1];
    cbn [fst snd] in *; [| auto].
  assert (Hthrow : initAutoSave_form i p1 = (Throw SyntaxError, p1)).
  { unfold initAutoSave_form. rewrite H1, Hfm.
    rewrite (restore_malformed p1 i (formId fm) s) by (rewrite ?H3; assumption).
    reflexivity. }
  cbn [forEach]. rewrite Hthrow. cbn [snd]. auto.
Qed.

End InitFrame.

(** On a page with no listener yet, initAutoSave leaves the profile form
    tracked under its identifier. *)
Lemma initAutoSave_tracks_witness :
  AutoSave.tracked (AutoSave.initAutoSave (host := AutoSave.text_host) Scenario.alice_page).2
                   0 (JS.str "profile-form").
Proof.
  apply (initAutoSave_tracks (host := AutoSave.text_host) Scenario.alice_page 0
           Scenario.profile_form); reflexivity.
Defined.

(** The truncated draft of the first form leaves the profile form, which
    comes second, without its draft and without listeners. *)
Lemma malformed_draft_abandons_later_forms_witness :
  Dom.forms (AutoSave.initAutoSave (host := AutoSave.text_host) Cases.broken_then_profile).2 !! 1
  = Some Scenario.profile_form
  /\ AutoSave.listeners_on 1
       (AutoSave.initAutoSave (host := AutoSave.text_host) Cases.broken_then_profile).2 = [].
Proof.
  apply (malformed_draft_abandons_later_forms (host := AutoSave.text_host)
           Cases.broken_then_profile 0 1 Cases.first_form Scenario.truncated_draft);
    [reflexivity | reflexivity | reflexivity | reflexivity | lia].
Defined.

(** ** The listeners and the store *)
Section StoreFrame.
Import Dom AutoSave.

Lemma storage_key_inj (id id' : jsstring) : storage_key id = storage_key id' -> id = id'.
Proof. unfold storage_key. apply app_inv_head. Qed.

(** Forms with different identifiers never touch each other's draft: the
    change listener and the submit listener of one form leave the record
    stored for the other as it is, and neither changes a field or a
    listener. *)
Theorem other_drafts_untouched (p : Page) (i : nat) (id id' : jsstring) :
  id <> id' ->
  (Storage.getItem (storage_key id') (localStorage (change_handler i id p).2)
   = Storage.getItem (storage_key id') (localStorage p)
   /\ forms (change_handler i id p).2 = forms p
   /\ listeners (change_handler i id p).2 = listeners p)
  /\ (Storage.getItem (storage_key id') (localStorage (submit_handler id p).2)
      = Storage.getItem (storage_key id') (localStorage p)
      /\ forms (submit_handler id p).2 = forms p
      /\ listeners (submit_handler id p).2 = listeners p).
Proof.
  intros Hne.
  assert (Hk : storage_key id <> storage_key id').
  { intros Heq. apply Hne, storage_key_inj, Heq. }
  split.
  - unfold change_handler, Storage.setItem.
    destruct (_ <=? _); cbn [snd set_storage localStorage forms listeners]; [| auto].
    split; [| auto]. unfold Storage.getItem. cbn [Storage.items].
    apply lookup_insert_ne. exact Hk.
  - unfold submit_handler, Storage.removeItem, Storage.getItem.
    cbn [snd set_storage localStorage forms listeners Storage.items].
    split; [| auto]. apply lookup_delete_ne. exact Hk.
Qed.

(** A change event that follows a successful one, with the fields as they
    were, succeeds as well and leaves the page exactly as the first one
    did: the record is overwritten by itself, the store does not grow. *)
Theorem repeated_change_is_idempotent (p p1 : Page) (i : nat) (id : jsstring) :
  change_handler i id p = (Normal tt, p1) ->
  change_handler i id p1 = (Normal tt, p1).
Proof.
  unfold change_handler, Storage.setItem.
  destruct (Storage.usage _ <=? Storage.quota (localStorage p)) eqn:Hq; [| discriminate].
  intros [= <-].
  assert (Hin : inputs_of i (set_storage
                  {| Storage.items := <[storage_key id := JSON_stringify (collect (inputs_of i p))]>
                                        (Storage.items (localStorage p));
                     Storage.quota := Storage.quota (localStorage p) |} p)
                = inputs_of i p) by reflexivity.
  rewrite Hin. cbn [set_storage localStorage Storage.items Storage.quota].
  rewrite insert_insert_eq, Hq. reflexivity.
Qed.

(** Forms without an identifier, or with an empty one, share the key
    [autosave-admin-form]: after a change event on one of them, the record
    that the restore step reads for the other is the snapshot of the first. *)
Theorem unidentified_forms_share_draft
        (p : Page) (i j k : nat) (fm fm' : Form) (st' : Storage.t) :
  forms p !! i = Some fm ->
  forms p !! k = Some fm' ->
  truthy (default [] (getAttribute (str "id") (form_attrs fm))) = false ->
  truthy (default [] (getAttribute (str "id") (form_attrs fm'))) = false ->
  tracked p i (formId fm) ->
  j < length (inputs_of i p) ->
  Storage.setItem (storage_key (formId fm)) (JSON_stringify (collect (inputs_of i p)))
                  (localStorage p) = Normal st' ->
  formId fm = str "admin-form"
  /\ formId fm' = str "admin-form"
  /\ Storage.getItem (storage_key (formId fm'))
       (localStorage (dispatchEvent (OnField i j) Change p).2)
     = Some (JSON_stringify (collect (inputs_of i p))).
Proof.
  intros Hfm Hfm' Hid Hid' [_ Hch] Hj Hset.
  assert (Hfallback : forall g, truthy (default [] (getAttribute (str "id") (form_attrs g))) = false ->
                                formId g = str "admin-form").
  { intros g Hg. unfold formId.
    destruct (getAttribute (str "id") (form_attrs g)) as [a |]; [| reflexivity].
    simpl in Hg. rewrite Hg. reflexivity. }
  rewrite (Hfallback fm' Hid'). rewrite (Hfallback fm Hid) in *.
  split; [reflexivity |]. split; [reflexivity |].
  unfold dispatchEvent. rewrite (Hch j Hj). cbn [run_listeners run_handler].
  unfold change_handler. rewrite Hset. cbn [snd set_storage localStorage].
  apply (getItem_setItem _ _ _ _ Hset).
Qed.

End StoreFrame.

(** The draft of the profile form survives a submit of another form. *)
Lemma other_drafts_untouched_witness :
  Storage.getItem Scenario.profile_key
    (Dom.localStorage (AutoSave.submit_handler (JS.str "plan-form") Scenario.alice_page).2)
  = Some Scenario.alice_draft.
Proof.
  refine (eq_trans (proj1 (proj2
    (other_drafts_untouched Scenario.alice_page 0 (JS.str "plan-form")
       (JS.str "profile-form") _))) eq_refl).
  vm_compute. congruence.
Defined.

(** Two change events in a row on the tracked profile form. *)
Lemma repeated_change_is_idempotent_witness :
  AutoSave.change_handler 0 (JS.str "profile-form")
    (AutoSave.change_handler 0 (JS.str "profile-form") Scenario.typed_tracked).2
  = (Normal tt, (AutoSave.change_handler 0 (JS.str "profile-form") Scenario.typed_tracked).2).
Proof.
  apply (repeated_change_is_idempotent Scenario.typed_tracked). reflexivity.
Defined.

(** The search form and the comment form of one page: a change in the
    search form writes the record that the comment form will read. *)
Lemma unidentified_forms_share_draft_witness :
  Storage.getItem (AutoSave.storage_key (AutoSave.formId Cases.comment_form))
    (Dom.localStorage
       (AutoSave.dispatchEvent (Dom.OnField 0 0) Dom.Change Cases.two_forms_tracked).2)
  = Some (AutoSave.lit "{'q':'tea'}").
Proof.
  refine (proj2 (proj2
    (unidentified_forms_share_draft Cases.two_forms_tracked 0 0 1
       Cases.search_form Cases.comment_form _ eq_refl eq_refl eq_refl eq_refl _ _ eq_refl))).
  - split; [reflexivity |].
    intros [| j] Hj; [reflexivity | vm_compute in Hj; lia].
  - vm_compute. lia.
Defined.

(** ** What was saved comes back *)
Section RecoveryFacts.
Import Dom AutoSave Recovery.



Lemma step_fields_attrs (l : list Field) (e : jsstring * jsstring) :
  map attrs (step_fields l e) = map attrs l.
Proof.
  unfold step_fields. destruct (find_name e.1 l) as [j |]; [| reflexivity].
  destruct (l !! j) as [input |] eqn:Hj; [| reflexivity].
  destruct (negb (truthy (value input))); [| reflexivity].
  change (attrs <$> <[j := highlighted input e.2]> l = attrs <$> l).
  rewrite list_fmap_insert. cbn [highlighted attrs].
  apply list_insert_id. rewrite list_lookup_fmap, Hj. reflexivity.
Qed.



Lemma fold_step_attrs (es : list (jsstring * jsstring)) : forall l,
  map attrs (fold_left step_fields es l) = map attrs l.
Proof.
  induction es as [| e es IH]; intros l; simpl; [reflexivity |].
  rewrite IH. apply step_fields_attrs.
Qed.



Context {host : Host}.







End RecoveryFacts.




(** ** The currency symbol across several changes *)
Section CurrencyUseFacts.
Import Currency CurrencyUse.

(** Running updateCurrencySymbol a second time changes neither the symbol
    nor the selected currency: the symbol is settled by the first run. *)
Theorem updateCurrencySymbol_settles (p : Page) :
  symbol_value (updateCurrencySymbol (updateCurrencySymbol p))
  = symbol_value (updateCurrencySymbol p)
  /\ currencyField (updateCurrencySymbol (updateCurrencySymbol p)) = currencyField p.
Proof.
  split; [| rewrite !update_keeps_currency; reflexivity].
  assert (Hcases :
    updateCurrencySymbol p = p
    \/ exists c, truthy c && to_boolean (lookup c) = true
                 /\ updateCurrencySymbol p
                    = mkPage (Some c)
                             (Some (mkSymbol (to_string (lookup c)) (str "#d1fae5")))
                             (changeListeners p) (timeouts p ++ [1000]) (wrapperHelp p)).
  { unfold updateCurrencySymbol.
    destruct (currencyField p) as [c |]; [| left; reflexivity].
    destruct (currencySymbolField p) as [f |]; [| left; reflexivity].
    destruct (truthy c && to_boolean (lookup c)) eqn:Hcond; [| left; reflexivity].
    destruct (is_default (trim (value f))); [| left; reflexivity].
    right. exists c. split; [exact Hcond | reflexivity]. }
  destruct Hcases as [Hsame | (c & Hcond & Hnew)].
  - rewrite !Hsame. reflexivity.
  - rewrite Hnew. unfold updateCurrencySymbol.
    cbn [currencyField currencySymbolField value]. rewrite Hcond.
    destruct (is_default _); reflexivity.
Qed.

Lemma own_symbol_trimmed (cur sym : jsstring) :
  Obj.get CURRENCY_SYMBOLS cur = Some sym -> trim sym = sym.
Proof.
  unfold CURRENCY_SYMBOLS. cbn [Obj.get].
  repeat (case_bool_decide; [intros [= <-]; reflexivity |]).
  discriminate.
Qed.

Lemma update_skips_custom_symbol (p : Page) (f : SymbolField) :
  currencySymbolField p = Some f -> is_default (trim (value f)) = false ->
  updateCurrencySymbol p = p.
Proof.
  intros Hf Hd. unfold updateCurrencySymbol. rewrite Hf, Hd.
  destruct (currencyField p) as [c |]; [| reflexivity].
  destruct (truthy c && to_boolean (lookup c)); reflexivity.
Qed.

Lemma iter_update_skips (n : nat) (p : Page) (f : SymbolField) :
  currencySymbolField p = Some f -> is_default (trim (value f)) = false ->
  Nat.iter n updateCurrencySymbol p = p.
Proof.
  intros Hf Hd. induction n as [| n IH]; simpl; [reflexivity |].
  rewrite IH. eapply update_skips_custom_symbol; eauto.
Qed.

(** A symbol filled in by the script is not refreshed afterwards, unless
    it is the dollar or the naira sign: once the field holds the symbol of a
    mapped currency other than these two, picking any other currency leaves
    the symbol field exactly as it is. *)
Theorem populated_symbol_is_not_refreshed
        (p : Page) (cur sym c : jsstring) (f : SymbolField) :
  Obj.get CURRENCY_SYMBOLS cur = Some sym ->
  sym <> DOLLAR -> sym <> NAIRA ->
  currencySymbolField p = Some f ->
  value f = sym ->
  currencySymbolField (select_currency c p) = Some f.
Proof.
  intros Hown Hd Hn Hf Hv.
  assert (Hdef : is_default (trim (value f)) = false).
  { rewrite Hv, (own_symbol_trimmed cur sym Hown).
    destruct (own_symbol_truthy cur sym Hown) as [_ Hs].
    destruct (is_default sym) eqn:Hdef; [| reflexivity].
    apply is_default_spec in Hdef as [-> | [-> | ->]]; [discriminate | congruence..]. }
  unfold select_currency. destruct (currencyField p); [| exact Hf].
  unfold change_event. cbn [changeListeners].
  rewrite (iter_update_skips _ _ f); [exact Hf | exact Hf | exact Hdef].
Qed.

End CurrencyUseFacts.

(** The euro sign was filled in; the pound is then selected, and the
    field still shows the euro sign. *)
Lemma populated_symbol_is_not_refreshed_witness :
  Currency.symbol_value
    (CurrencyUse.select_currency (JS.str "GBP")
       (Currency.DOMContentLoaded_handler (Scenario.currency_page (JS.str "EUR") [])))
  = Some [8364%N].
Proof.
  refine (f_equal (fmap Currency.value)
    (populated_symbol_is_not_refreshed
       (Currency.DOMContentLoaded_handler (Scenario.currency_page (JS.str "EUR") []))
       (JS.str "EUR") [8364%N] (JS.str "GBP")
       (Currency.mkSymbol [8364%N] (JS.str "#d1fae5")) eq_refl _ _ eq_refl eq_refl));
    vm_compute; congruence.
Defined.

(** A currency outside the mapping, such as the CFA franc, leaves the
    page as it is. *)
Lemma unmapped_currency_leaves_symbol_witness :
  Currency.updateCurrencySymbol (Scenario.currency_page (JS.str "XOF") [])
  = Scenario.currency_page (JS.str "XOF") [].
Proof.
  apply (unmapped_currency_leaves_symbol _ (JS.str "XOF")); [reflexivity |].
  right. reflexivity.
Defined.

(** ** The loading indicators *)
Section LoadingFacts.
Import Loading.

Lemma classList_remove_absent (token : jsstring) (cl : list jsstring) :
  token ∉ cl -> classList_remove token cl = cl.
Proof.
  intros Hn. unfold classList_remove. induction cl as [| c cl IH]; [reflexivity |].
  apply not_elem_of_cons in Hn as [Hne Hn]. rewrite filter_cons.
  destruct (decide (c <> token)) as [_ | Hc]; [f_equal; apply IH, Hn |].
  exfalso. apply Hc. congruence.
Qed.

(** hideLoading undoes showLoading: no loading class is left, the other
    classes keep their order, and an element that was not loading gets back
    the class list it had.  showLoading twice is showLoading once. *)
Theorem hideLoading_undoes_showLoading (element : list jsstring) :
  (LOADING ∉ hideLoading (showLoading element))
  /\ hideLoading (showLoading element) = hideLoading element
  /\ (LOADING ∉ element -> hideLoading (showLoading element) = element)
  /\ showLoading (showLoading element) = showLoading element.
Proof.
  unfold hideLoading, showLoading, classList_add.
  assert (Hgone : forall cl, LOADING ∉ classList_remove LOADING cl).
  { intros cl Hin. unfold classList_remove in Hin.
    apply list_elem_of_filter in Hin as [Hne _]. apply Hne. reflexivity. }
  assert (Happ : classList_remove LOADING (element ++ [LOADING])
                 = classList_remove LOADING element).
  { unfold classList_remove. rewrite filter_app, filter_cons.
    destruct (decide (LOADING <> LOADING)) as [Hc | _]; [exfalso; apply Hc; reflexivity |].
    rewrite filter_nil. apply app_nil_r. }
  split; [apply Hgone |].
  case_bool_decide as Hin.
  - split; [reflexivity |]. split; [intros Hn; contradiction |].
    rewrite bool_decide_eq_true_2 by exact Hin. reflexivity.
  - split; [exact Happ |]. split.
    + intros _. rewrite Happ. apply classList_remove_absent, Hin.
    + rewrite bool_decide_eq_true_2; [reflexivity |].
      apply elem_of_app. right. left.
Qed.

End LoadingFacts.

(** ** What the page-load handler registers on the controls *)
Section PageLoadListeners.
Import Dom AutoSave.

Lemma all_fields_elem (p : Page) (i j : nat) (f : Field) :
  (i, j, f) ∈ all_fields p <-> field_at p i j = Some f.
Proof.
  unfold all_fields, field_at. rewrite list_elem_of_In, in_concat. split.
  - intros (l & Hl & Hx). apply list_elem_of_In in Hl, Hx.
    apply elem_of_lookup_imap in Hl as (i' & fm & -> & Hfm).
    apply elem_of_lookup_imap in Hx as (j' & f' & [= -> -> ->] & Hf).
    rewrite Hfm. exact Hf.
  - destruct (forms p !! i) as [fm |] eqn:Hfm; [| discriminate]. intros Hf.
    exists (imap (fun j f => (i, j, f)) (fields fm)). split; apply list_elem_of_In.
    + apply (elem_of_lookup_imap_2 (fun i fm => imap (fun j f => (i, j, f)) (fields fm))).
      exact Hfm.
    + apply (elem_of_lookup_imap_2 (fun j f => (i, j, f))). exact Hf.
Qed.

Lemma register_fold_elem (sel : Field -> bool) ev h (l : list (nat * nat * Field))
      (x : Target * EventType * Handler) :
  forall q : Page,
    x ∈ listeners (fold_left (fun (q : Page) '(i, j, f) =>
                     if sel f then addEventListener (OnField i j) ev h q else q) l q)
    <-> x ∈ listeners q
        \/ exists i j f, (i, j, f) ∈ l /\ sel f = true /\ x = (OnField i j, ev, h).
Proof.
  induction l as [| [[i j] f] l IH]; intros q; cbn [fold_left].
  - split; [auto |]. intros [H | (i & j & f & H & _)]; [exact H | inversion H].
  - rewrite IH. split.
    + intros [Hq | (i' & j' & f' & Hin & Hs & Hx)].
      * destruct (sel f) eqn:Hsel; [| auto].
        cbn [addEventListener listeners] in Hq.
        apply elem_of_app in Hq as [Hq | Hq]; [auto |].
        apply list_elem_of_singleton in Hq. right. exists i, j, f.
        split; [left | auto].
      * right. exists i', j', f'. split; [right; exact Hin | auto].
    + intros [Hq | (i' & j' & f' & Hin & Hs & Hx)].
      * left. destruct (sel f); [| exact Hq].
        cbn [addEventListener listeners]. apply elem_of_app. left. exact Hq.
      * apply elem_of_cons in Hin as [[= -> -> ->] | Hin].
        -- left. rewrite Hs. cbn [addEventListener listeners].
           apply elem_of_app. right. rewrite Hx. left.
        -- right. exists i', j', f'. auto.
Qed.

Lemma register_where_elem (sel : Field -> bool) ev h (p : Page)
      (x : Target * EventType * Handler) :
  x ∈ listeners (register_where sel ev h p)
  <-> x ∈ listeners p
      \/ exists i j f, field_at p i j = Some f /\ sel f = true /\ x = (OnField i j, ev, h).
Proof.
  unfold register_where. rewrite register_fold_elem. split.
  - intros [H | (i & j & f & Hin & Hs & Hx)]; [auto |].
    right. exists i, j, f. rewrite <- all_fields_elem. auto.
  - intros [H | (i & j & f & Hin & Hs & Hx)]; [auto |].
    right. exists i, j, f. rewrite all_fields_elem. auto.
Qed.

Lemma register_where_elem_other (sel : Field -> bool) ev h (p : Page)
      (t : Target) (ev' : EventType) (h' : Handler) :
  (ev', h') <> (ev, h) ->
  (t, ev', h') ∈ listeners (register_where sel ev h p) <-> (t, ev', h') ∈ listeners p.
Proof.
  intros Hne. rewrite register_where_elem. split; [| auto].
  intros [H | (i & j & f & _ & _ & [= -> -> ->])]; [exact H | congruence].
Qed.

Lemma register_where_field_at (sel : Field -> bool) ev h (p : Page) (i j : nat) :
  field_at (register_where sel ev h p) i j = field_at p i j.
Proof.
  unfold field_at. destruct (register_where_spec sel ev h p) as (Hf & _). rewrite Hf.
  reflexivity.
Qed.

(** At page load a control receives the validation on blur exactly when it
    carries the attribute [required], and a textarea the character counter
    exactly when it has a non-empty [maxlength] (listeners already present
    apart). *)
Theorem page_load_validates_required_controls (p : Page) (i j : nat) (f : Field) :
  field_at p i j = Some f ->
  ((OnField i j, Blur, Decoration RequiredValidation) ∈ listeners (DOMContentLoaded_handler p)
   <-> (OnField i j, Blur, Decoration RequiredValidation) ∈ listeners p
       \/ has_attr (str "required") f = true)
  /\ ((OnField i j, InputEvent, Decoration CharacterCounter)
        ∈ listeners (DOMContentLoaded_handler p)
      <-> (OnField i j, InputEvent, Decoration CharacterCounter) ∈ listeners p
          \/ (tag f = TEXTAREA /\ attr_truthy (str "maxlength") f = true)).
Proof.
  intros Hf.
  unfold DOMContentLoaded_handler, initTooltips, initAnimations, initSearchEnhancements,
    initFormEnhancements, initTableEnhancements, initDashboardStats. cbn zeta.
  split.
  - rewrite !register_where_elem_other by discriminate.
    rewrite register_where_elem, register_where_elem_other by discriminate.
    split.
    + intros [H | (i' & j' & f' & Hf' & Hs & [= -> ->])]; [auto |].
      right. rewrite register_where_field_at in Hf'. congruence.
    + intros [H | H]; [auto |]. right. exists i, j, f.
      rewrite register_where_field_at. auto.
  - rewrite !register_where_elem_other by discriminate.
    rewrite register_where_elem. split.
    + intros [H | (i' & j' & f' & Hf' & Hs & [= -> ->])]; [auto |].
      right. assert (f' = f) by congruence. subst f'.
      apply andb_true_iff in Hs as [Ht Hm]. apply bool_decide_eq_true in Ht. auto.
    + intros [H | [Ht Hm]]; [auto |]. right. exists i, j, f.
      split; [exact Hf |]. split; [| reflexivity].
      apply andb_true_iff. split; [apply bool_decide_eq_true, Ht | exact Hm].
Qed.

End PageLoadListeners.

(** A page with one required text input: page load gives it the
    validation on blur. *)
Lemma page_load_validates_required_controls_witness :
  (Dom.OnField 0 0, Dom.Blur, Dom.Decoration Dom.RequiredValidation)
    ∈ Dom.listeners (AutoSave.DOMContentLoaded_handler Cases.required_page).
Proof.
  apply (proj1 (page_load_validates_required_controls Cases.required_page 0 0 _ eq_refl)).
  right. reflexivity.
Defined.

(** ** Events leave the page tracked *)
Section DispatchFrame.
Import Dom AutoSave.




End DispatchFrame.

Section CurrencyLoad.
Import Currency.

(** At page load, with a mapped currency selected and a symbol field that
    is empty or holds the dollar sign (spaces around it apart), the field
    shows the symbol of the selected currency and one change listener is
    registered. *)
Theorem load_populates_default_symbol
        (p : Page) (cur sym : jsstring) (f : SymbolField) :
  currencyField p = Some cur ->
  currencySymbolField p = Some f ->
  Obj.get CURRENCY_SYMBOLS cur = Some sym ->
  trim (value f) = [] \/ trim (value f) = DOLLAR ->
  symbol_value (DOMContentLoaded_handler p) = Some sym
  /\ changeListeners (DOMContentLoaded_handler p) = S (changeListeners p)
  /\ currencyField (DOMContentLoaded_handler p) = Some cur.
Proof.
  intros Hc Hf Hown Hd.
  destruct (own_symbol_truthy cur sym Hown) as [Hcur Hsym].
  assert (Hdef : is_default (trim (value f)) = true).
  { apply is_default_spec. tauto. }
  assert (Htrig : load_trigger (add_listener p) = true).
  { unfold load_trigger, add_listener. cbn. rewrite Hc, Hf, Hcur.
    destruct Hd as [-> | ->]; reflexivity. }
  unfold DOMContentLoaded_handler. rewrite Hc, Hf. cbn zeta. rewrite Htrig.
  unfold updateCurrencySymbol, add_listener.
  cbn [currencyField currencySymbolField changeListeners timeouts wrapperHelp].
  rewrite Hc, Hf, (lookup_own cur sym Hown). cbn [to_boolean to_string].
  rewrite Hcur, Hsym, Hdef. cbn [andb].
  unfold add_help. cbn [wrapperHelp].
  destruct (wrapperHelp p) as [[| n] |]; auto.
Qed.

End CurrencyLoad.

(** The tenant form opened with the pound selected and the placeholder
    dollar sign in the symbol field. *)
Lemma load_populates_default_symbol_witness :
  Currency.symbol_value
    (Currency.DOMContentLoaded_handler (Scenario.currency_page (JS.str "GBP") (JS.str "$")))
  = Some [163%N].
Proof.
  apply (load_populates_default_symbol _ (JS.str "GBP") [163%N]
           (Currency.mkSymbol (JS.str "$") []));
    [reflexivity | reflexivity | reflexivity | right; reflexivity].
Defined.
